(** * FlexGet [flexget/terminal.py]: tables, colour markup and the
      redirectable console

    A shallow embedding of the module and the properties of its functions.
    Python [str] is [string] (characters are the code points 0..255),
    Python [int] is [Z], a dict is a [gmap], and a call that can raise
    returns an [outcome]. *)

From Stdlib Require Import ZArith Lia Ascii String List Bool.
From stdpp Require Import base option list gmap strings.

Local Open Scope string_scope.
Local Open Scope list_scope.
Local Open Scope Z_scope.

(** ** Exceptions and outcomes *)

(** The exceptions that can leave the functions of the module.  [IOError]
    stands for whatever the stream behind the console raises on a write. *)
Inductive exn : Type :=
  | KeyError (key : string)
  | IndexError
  | ValueError (msg : string) (arg : Z)
  | TerminalTableError (msg : string)
  | IOError (errno : Z).

(** What a call does: it returns, it raises, or the bound put on a [while]
    loop of the source was exhausted. *)
Inductive outcome (A : Type) : Type :=
  | Ok (a : A)
  | Raise (e : exn)
  | OutOfFuel.
Arguments Ok {A} a.
Arguments Raise {A} e.
Arguments OutOfFuel {A}.

#[global] Instance outcome_ret : MRet outcome := fun A a => Ok a.
#[global] Instance outcome_bind : MBind outcome := fun A B f m =>
  match m with
  | Ok a => f a
  | Raise e => Raise e
  | OutOfFuel => OutOfFuel
  end.

(** ** Python strings *)

Definition len (s : string) : Z := Z.of_nat (String.length s).

Fixpoint str_take (n : nat) (s : string) : string :=
  match n, s with
  | S n', String c s' => String c (str_take n' s')
  | _, _ => ""
  end.

Fixpoint str_drop (n : nat) (s : string) : string :=
  match n, s with
  | S n', String _ s' => str_drop n' s'
  | _, _ => s
  end.

(** [s[:e]] and [s[b:]]; a negative index counts from the end and an index
    out of range is clamped. *)
Definition slice_to (e : Z) (s : string) : string :=
  if e <? 0 then str_take (Z.to_nat (len s + e)) s else str_take (Z.to_nat e) s.

Definition slice_from (b : Z) (s : string) : string :=
  if b <? 0 then str_drop (Z.to_nat (len s + b)) s else str_drop (Z.to_nat b) s.

Fixpoint str_any (p : ascii -> bool) (s : string) : bool :=
  match s with
  | "" => false
  | String c s' => p c || str_any p s'
  end.

(** [s.rfind(c)]: the highest index of [c] in [s], or [-1]. *)
Fixpoint rfind_char (c : ascii) (s : string) : Z :=
  match s with
  | "" => -1
  | String a s' =>
      let r := rfind_char c s' in
      if 0 <=? r then r + 1 else if Ascii.eqb a c then 0 else -1
  end.

(** [s.rfind(c, 0, e)] searches [s[0:e]]. *)
Definition rfind (c : ascii) (e : Z) (s : string) : Z :=
  rfind_char c (slice_to e s).

(** The characters [str.strip()] removes: the code points below 256 that
    [str.isspace] accepts. *)
Definition py_isspace (c : ascii) : bool :=
  let n := nat_of_ascii c in
  ((9 <=? n) && (n <=? 13) || (28 <=? n) && (n <=? 32)
   || (n =? 133) || (n =? 160))%nat.

Fixpoint lstrip (s : string) : string :=
  match s with
  | "" => ""
  | String c s' => if py_isspace c then lstrip s' else s
  end.

Fixpoint rstrip (s : string) : string :=
  match s with
  | "" => ""
  | String c s' =>
      match rstrip s' with
      | "" => if py_isspace c then "" else String c ""
      | r => String c r
      end
  end.

Definition strip (s : string) : string := lstrip (rstrip s).

(** The characters of a string that are not whitespace, in order. *)
Fixpoint visible_chars (s : string) : string :=
  match s with
  | "" => ""
  | String c s' =>
      if py_isspace c then visible_chars s' else String c (visible_chars s')
  end.

(** Truth value of a [str]: the empty string is false. *)
Definition truthy (s : string) : bool :=
  match s with "" => false | _ => true end.

Definition newline : ascii := "010"%char.
Definition hyphen_char : ascii := "-"%char.

(** [sep.join(parts)] *)
Fixpoint join (sep : string) (parts : list string) : string :=
  match parts with
  | [] => ""
  | [p] => p
  | p :: rest => p +:+ sep +:+ join sep rest
  end.

(** [s.split('\n')]: the lines of a string. *)
Fixpoint split_nl (s : string) : list string :=
  match s with
  | "" => [""]
  | String c s' =>
      if Ascii.eqb c newline then "" :: split_nl s'
      else match split_nl s' with
           | [] => [String c ""]
           | l :: ls => String c l :: ls
           end
  end.

(** [s.partition('\n')]: the text before the first newline, the newline
    if there is one, and the text after it. *)
Fixpoint partition_nl (s : string) : string * string * string :=
  match s with
  | "" => ("", "", "")
  | String c s' =>
      if Ascii.eqb c newline then ("", String newline "", s')
      else let '(before, sep, after) := partition_nl s' in
           (String c before, sep, after)
  end.

(** ** [colorize] *)

Definition colorize (color text : string) : string :=
  "[" +:+ color +:+ "]" +:+ text +:+ "[/]".

(** ** [textwrap.wrap], as [word_wrap] calls it

    [wrap(text, width)] builds a [TextWrapper] with its default options
    ([expand_tabs], [replace_whitespace], [drop_whitespace],
    [break_long_words], [break_on_hyphens] set, empty indents, [tabsize]
    8, no [max_lines]) and calls its [wrap].  The regular expression
    [wordsep_re] that cuts the text into chunks belongs to the [re]
    engine; it is the parameter [wordsep_split]. *)

Fixpoint spaces (n : nat) : string :=
  match n with
  | O => ""
  | S n' => String " "%char (spaces n')
  end.

(** [str.expandtabs(tabsize)], with the column [col] reached so far. *)
Fixpoint expandtabs_from (tabsize col : nat) (s : string) : string :=
  match s with
  | "" => ""
  | String c s' =>
      if Ascii.eqb c "009"%char then
        if (0 <? tabsize)%nat then
          let incr := (tabsize - col mod tabsize)%nat in
          spaces incr +:+ expandtabs_from tabsize (col + incr) s'
        else expandtabs_from tabsize col s'
      else if Ascii.eqb c newline || Ascii.eqb c "013"%char then
        String c (expandtabs_from tabsize 0 s')
      else String c (expandtabs_from tabsize (S col) s')
  end.

Definition expandtabs (tabsize : nat) (s : string) : string :=
  expandtabs_from tabsize 0 s.

(** [_whitespace = '\t\n\x0b\x0c\r '] *)
Definition in_whitespace (c : ascii) : bool :=
  let n := nat_of_ascii c in ((9 <=? n) && (n <=? 13) || (n =? 32))%nat.

(** A character of [_whitespace] other than the space: a tab, a line
    feed, a vertical tab, a form feed or a carriage return. *)
Definition other_whitespace (c : ascii) : bool :=
  in_whitespace c && negb (Ascii.eqb c " "%char).

(** [text.translate(unicode_whitespace_trans)] *)
Fixpoint translate_whitespace (s : string) : string :=
  match s with
  | "" => ""
  | String c s' =>
      String (if in_whitespace c then " "%char else c) (translate_whitespace s')
  end.

Definition _munge_whitespace (text : string) : string :=
  translate_whitespace (expandtabs 8 text).

(** [_handle_long_word]: the chunk on top of the stack does not fit on any
    line; a piece of it goes to the current line.  The stack of chunks is
    a list with its top first. *)
Definition _handle_long_word (chunks cur_line : list string)
    (cur_len width : Z) : list string * list string :=
  let space_left := if width <? 1 then 1 else width - cur_len in
  match chunks with
  | [] => (chunks, cur_line)
  | chunk :: rest =>
      let hyphen := rfind hyphen_char space_left chunk in
      let end_ :=
        if (space_left <? len chunk)
           && (0 <? hyphen)
           && str_any (fun c => negb (Ascii.eqb c hyphen_char))
                (slice_to hyphen chunk)
        then hyphen + 1 else space_left in
      (slice_from end_ chunk :: rest, cur_line ++ [slice_to end_ chunk])
  end.

(** The inner loop of [_wrap_chunks]: chunks are popped onto the current
    line while they fit. *)
Fixpoint fill_line (width : Z) (chunks cur_line : list string) (cur_len : Z)
    : list string * list string * Z :=
  match chunks with
  | [] => (chunks, cur_line, cur_len)
  | chunk :: rest =>
      let l := len chunk in
      if cur_len + l <=? width
      then fill_line width rest (cur_line ++ [chunk]) (cur_len + l)
      else (chunks, cur_line, cur_len)
  end.

Definition is_blank (s : string) : bool := negb (truthy (strip s)).

(** [del cur_line[-1]] when the last chunk of the line is all whitespace. *)
Definition drop_trailing_blank (cur_line : list string) : list string :=
  match last cur_line with
  | Some c => if is_blank c then removelast cur_line else cur_line
  | None => cur_line
  end.

(** [del chunks[-1]] when the chunk on top is all whitespace and a line
    has been started before. *)
Definition drop_leading_blank (chunks lines : list string) : list string :=
  match chunks with
  | c :: rest =>
      if is_blank c && negb (bool_decide (lines = [])) then rest else chunks
  | [] => chunks
  end.

(** [if chunks and len(chunks[-1]) > width: self._handle_long_word(...)] *)
Definition break_long_word (width : Z) (chunks cur_line : list string)
    (cur_len : Z) : list string * list string :=
  match chunks with
  | c :: _ =>
      if width <? len c
      then _handle_long_word chunks cur_line cur_len width
      else (chunks, cur_line)
  | [] => (chunks, cur_line)
  end.

(** One pass of the outer loop of [_wrap_chunks] over a non-empty stack:
    the stack that is left and the lines so far.  ([cur_len] is computed
    again after [_handle_long_word] in the source, and read only where
    [max_lines] is set.) *)
Definition wrap_one_line (width : Z) (chunks lines : list string)
    : list string * list string :=
  let chunks1 := drop_leading_blank chunks lines in
  let '(chunks2, cur_line, cur_len) := fill_line width chunks1 [] 0 in
  let '(chunks3, cur_line1) :=
    break_long_word width chunks2 cur_line cur_len in
  let cur_line2 := drop_trailing_blank cur_line1 in
  match cur_line2 with
  | [] => (chunks3, lines)
  | _ => (chunks3, lines ++ [join "" cur_line2])
  end.

(** The outer loop, [while chunks:]. *)
Fixpoint wrap_loop (fuel : nat) (width : Z) (chunks lines : list string)
    : outcome (list string) :=
  match chunks with
  | [] => Ok lines
  | _ =>
      match fuel with
      | O => OutOfFuel
      | S fuel' =>
          let '(chunks', lines') := wrap_one_line width chunks lines in
          wrap_loop fuel' width chunks' lines'
      end
  end.

(** Every pass of the outer loop takes a chunk or a character off the
    stack, so this many passes are enough. *)
Definition chunks_weight (chunks : list string) : nat :=
  fold_right (fun c n => S (String.length c + n)) O chunks.

(** [sum(map(len, chunks))] *)
Definition sum_len (chunks : list string) : Z :=
  fold_right (fun c n => len c + n) 0 chunks.

(** A chunk or a line as the loop keeps them: not empty, and with no
    whitespace but spaces. *)
Definition clean (s : string) : Prop :=
  s <> "" /\ str_any other_whitespace s = false.

Definition head_nonempty (l : list string) : Prop :=
  match l with
  | x :: _ => x <> ""
  | [] => True
  end.

Definition _wrap_chunks (width : Z) (chunks : list string)
    : outcome (list string) :=
  if width <=? 0 then Raise (ValueError "invalid width %r (must be > 0)" width)
  else wrap_loop (chunks_weight chunks) width chunks [].

Section TextWrap.
(** [wordsep_re.split]: the chunks of a text, in order. *)
Variable wordsep_split : string -> list string.

Definition _split (text : string) : list string :=
  filter (fun c => truthy c = true) (wordsep_split text).

Definition _split_chunks (text : string) : list string :=
  _split (_munge_whitespace text).

Definition wrap (text : string) (width : Z) : outcome (list string) :=
  _wrap_chunks width (_split_chunks text).

(** ** [word_wrap] *)
Definition word_wrap (text : string) (max_length : Z) : outcome string :=
  if max_length <=? len text then
    lines ← wrap text max_length;
    mret (join (String newline "") lines)
  else mret text.
End TextWrap.

(** [wordsep_simple_re.split], the splitter [TextWrapper] uses when
    [break_on_hyphens] is off: maximal runs of whitespace and of other
    characters.  It is an instance to run [wrap] on. *)
Fixpoint wordsep_simple_split (s : string) : list string :=
  match s with
  | "" => []
  | String c s' =>
      match wordsep_simple_split s' with
      | String d r :: rest =>
          if Bool.eqb (in_whitespace c) (in_whitespace d)
          then String c (String d r) :: rest
          else String c "" :: String d r :: rest
      | _ => [String c ""]
      end
  end.

(** ** [rich.table.Table], as far as [TerminalTable] builds it *)

(** A box is one of [rich.box]'s own or is given by its eight lines. *)
Inductive Box : Type :=
  | ASCII
  | SQUARE
  | DOUBLE
  | CustomBox (box_lines : list string) (is_ascii : bool).

Definition PORCELAIN_BOX : Box :=
  CustomBox ["    "; "  | "; "    "; "  | "; "    "; "    "; "  | "; "    "]
    true.

Definition GITHUB_BOX : Box :=
  CustomBox ["    "; "| ||"; "|-||"; "| ||"; "|-||"; "|-||"; "| ||"; "    "]
    true.

Record Column : Type := mkColumn {
  header : string;
  _cells : list string
}.

Record Row : Type := mkRow {
  row_style : option string;
  end_section : bool
}.

Record Table : Type := mkTable {
  Table_title : option string;
  box : Box;
  show_edge : bool;
  columns : list Column;
  rows : list Row
}.

(** The keyword arguments a table type stands for. *)
Record TableOptions : Type := mkOptions {
  opt_box : Box;
  opt_show_edge : option bool
}.

(** [rich.table.Table(title=..., **options)]; [show_edge] defaults to
    [True]. *)
Definition Table_new (title : option string) (o : TableOptions) : Table :=
  {| Table_title := title; box := opt_box o;
     show_edge := default true (opt_show_edge o);
     columns := []; rows := [] |}.

Definition set_columns (t : Table) (cs : list Column) : Table :=
  {| Table_title := Table_title t; box := box t; show_edge := show_edge t;
     columns := cs; rows := rows t |}.

Definition add_column (t : Table) (h : string) : Table :=
  set_columns t (columns t ++ [mkColumn h []]).

Definition add_cell (r : string) (c : Column) : Column :=
  mkColumn (header c) (_cells c ++ [r]).

(** The loop of [add_row] over [enumerate(cell_renderables)]: a cell
    beyond the last column opens a column, filled with empty text for the
    rows there are; [None] becomes the empty string. *)
Fixpoint add_cells (index : nat) (cells : list (option string)) (t : Table)
    : Table :=
  match cells with
  | [] => t
  | renderable :: rest =>
      let t1 :=
        if (index =? length (columns t))%nat
        then set_columns t
               (columns t ++ [mkColumn "" (replicate (length (rows t)) "")])
        else t in
      let t2 :=
        set_columns t1
          (alter (add_cell (default "" renderable)) index (columns t1)) in
      add_cells (S index) rest t2
  end.

Definition add_row (t : Table) (renderables : list string) : Table :=
  let cell_renderables :=
    (Some <$> renderables)
      ++ replicate (length (columns t) - length renderables)%nat None in
  let t' := add_cells 0 cell_renderables t in
  {| Table_title := Table_title t'; box := box t'; show_edge := show_edge t';
     columns := columns t'; rows := rows t' ++ [mkRow None false] |}.

(** What the loop of [add_row] makes of the columns from the one it
    starts at, with [nrows] rows in the table. *)
Fixpoint extend_columns (nrows : nat) (cells : list (option string))
    (cs : list Column) : list Column :=
  match cells with
  | [] => cs
  | x :: cells' =>
      match cs with
      | c :: cs' =>
          add_cell (default "" x) c :: extend_columns nrows cells' cs'
      | [] =>
          mkColumn "" (replicate nrows "" ++ [default "" x])
            :: extend_columns nrows cells' []
      end
  end.

(** Every column has a cell for every row. *)
Definition rectangular (t : Table) : Prop :=
  Forall (fun c => length (_cells c) = length (rows t)) (columns t).

(** The cell of row [i] in column [j]. *)
Definition cell_at (t : Table) (i j : nat) : option string :=
  c ← columns t !! j; _cells c !! i.

(** ** [TerminalTable] *)

Definition TABLE_TYPES : gmap string TableOptions :=
  <["plain" := mkOptions ASCII None]>
  (<["porcelain" := mkOptions PORCELAIN_BOX (Some false)]>
  (<["single" := mkOptions SQUARE None]>
  (<["double" := mkOptions DOUBLE None]>
  (<["github" := mkOptions GITHUB_BOX None]> ∅)))).

Record TerminalTable : Type := mkTerminalTable {
  title : option string;
  table_data : list (list string);
  type : string;
  table : Table
}.

(** [d[key]] of a dict and [l[0]] of a list. *)
Definition dict_getitem {V} (d : gmap string V) (key : string) : outcome V :=
  match d !! key with
  | Some v => Ok v
  | None => Raise (KeyError key)
  end.

Definition list_first {V} (l : list V) : outcome V :=
  match l with
  | x :: _ => Ok x
  | [] => Raise IndexError
  end.

(** [_init_table], on the attributes [__init__] has set. *)
Definition _init_table (self_title : option string)
    (self_table_data : list (list string)) (self_type : string)
    : outcome Table :=
  options ← dict_getitem TABLE_TYPES self_type;
  let t := Table_new self_title options in
  head_row ← list_first self_table_data;
  let t := fold_left add_column head_row t in
  mret (fold_left add_row (tail self_table_data) t).

(** [TerminalTable(table_type, table_data, title, wrap_columns,
    drop_columns)] *)
Definition TerminalTable_init (table_type : string)
    (table_data : list (list string)) (title : option string)
    (wrap_columns drop_columns : option (list Z)) : outcome TerminalTable :=
  t ← _init_table title table_data table_type;
  mret (mkTerminalTable title table_data table_type t).

(** ** Segments and [__rich_console__] *)

Record Segment : Type := mkSegment {
  text : string;
  style : option string;
  control : option (list Z)
}.

(** [Segment.line()] *)
Definition Segment_line : Segment := mkSegment (String newline "") None None.

(** Truth value of [segment.control]. *)
Definition has_control (s : Segment) : bool :=
  match control s with
  | Some (_ :: _) => true
  | _ => false
  end.

(** The [while text:] loop of [Segment.split_lines] over the text of one
    segment; [yielded] are the lines yielded so far, [line] the open one. *)
Fixpoint split_text (fuel : nat) (txt : string) (sty : option string)
    (yielded : list (list Segment)) (line : list Segment)
    : outcome (list (list Segment) * list Segment) :=
  match txt with
  | "" => Ok (yielded, line)
  | _ =>
      match fuel with
      | O => OutOfFuel
      | S fuel' =>
          let '(_text, new_line, rest) := partition_nl txt in
          let line1 :=
            if truthy _text then line ++ [mkSegment _text sty None]
            else line in
          if truthy new_line
          then split_text fuel' rest sty (yielded ++ [line1]) []
          else split_text fuel' rest sty yielded line1
      end
  end.

(** The [for segment in segments:] loop of [Segment.split_lines]. *)
Fixpoint split_segments (segments : list Segment)
    (yielded : list (list Segment)) (line : list Segment)
    : outcome (list (list Segment) * list Segment) :=
  match segments with
  | [] => Ok (yielded, line)
  | segment :: rest =>
      if str_any (Ascii.eqb newline) (text segment)
         && negb (has_control segment)
      then
        '(yielded', line') ← split_text (String.length (text segment))
                               (text segment) (style segment) yielded line;
        split_segments rest yielded' line'
      else split_segments rest yielded (line ++ [segment])
  end.

Definition split_lines (segments : list Segment)
    : outcome (list (list Segment)) :=
  '(yielded, line) ← split_segments segments [] [];
  mret (match line with [] => yielded | _ => yielded ++ [line] end).

(** [any(seg.text.strip() for seg in line)] *)
Definition has_visible_text (line : list Segment) : bool :=
  existsb (fun seg => truthy (strip (text seg))) line.

(** A segment [Segment.split_lines] leaves whole: it has no newline in
    its text, or it is a control segment. *)
Definition whole (seg : Segment) : Prop :=
  str_any (Ascii.eqb newline) (text seg) && negb (has_control seg) = false.

Section Render.
(** The console and the options [rich] hands to a renderable, and the
    rendering of a [rich] table, [Table.__rich_console__]. *)
Variables Console ConsoleOptions : Type.
Variable Table_rich_console :
  Table -> Console -> ConsoleOptions -> list Segment.

Definition __rich_console__ (self : TerminalTable) (console : Console)
    (options : ConsoleOptions) : outcome (list Segment) :=
  let segments := Table_rich_console (table self) console options in
  if negb (bool_decide (type self ∈ ["porcelain"; "github"]))
  then mret segments
  else
    lines ← split_lines segments;
    mret (concat ((fun line => line ++ [Segment_line])
                    <$> filter (fun line => has_visible_text line = true)
                          lines)).
End Render.

(** The lines of the table's rendering that [split_lines] has yielded
    when the table's generator ends. *)
Definition lines_so_far (ending : outcome unit)
    (complete : list (list Segment)) (open_line : list Segment)
    : list (list Segment) :=
  match ending, open_line with
  | Ok _, _ :: _ => complete ++ [open_line]
  | _, _ => complete
  end.

(** [__rich_console__] as the generator it is.  The generator of the
    [rich] table yields segments and then ends, by returning or by
    raising; [__rich_console__] yields while it consumes them, and ends
    the way the table's generator ends.  With a custom type, the lines
    closed by a newline so far have gone through the filter when the
    table's generator ends; the line left open is yielded by
    [split_lines] only when that generator returns. *)
Section RenderGenerator.
Variables Console ConsoleOptions : Type.
Variable Table_generator :
  Table -> Console -> ConsoleOptions -> list Segment * outcome unit.

Definition TerminalTable_rich_console (self : TerminalTable)
    (console : Console) (options : ConsoleOptions)
    : list Segment * outcome unit :=
  let '(segments, ending) := Table_generator (table self) console options in
  if negb (bool_decide (type self ∈ ["porcelain"; "github"]))
  then (segments, ending)
  else
    match split_segments segments [] [] with
    | Ok (yielded, line) =>
        let lines := lines_so_far ending yielded line in
        (concat ((fun line => line ++ [Segment_line])
                   <$> filter (fun line => has_visible_text line = true)
                         lines),
         ending)
    | Raise e => ([], Raise e)
    | OutOfFuel => ([], OutOfFuel)
    end.
End RenderGenerator.

(** ** The console and its redirection *)

(** A file-like object, known by its identity. *)
Inductive TextIO : Type := FileObj (id : nat).

#[global] Instance TextIO_eq_dec : EqDecision TextIO.
Proof. solve_decision. Defined.

(** One call of [rich_console.print]: where the console pointed, whether
    colours were off, and what was to be printed. *)
Record PrintCall : Type := mkPrintCall {
  call_file : option TextIO;
  call_no_color : bool;
  call_text : string;
  call_args : list string
}.

(** The state the module works on.  [local_context] is the
    [threading.local()]: for each thread the value of its attribute
    [output], if the thread has set one ([Some None] when it holds Python's
    [None]).  [rich_console_file] and [rich_console_no_color] are the two
    attributes of the one [rich_console] the module writes, and [printed]
    lists the calls of [rich_console.print], oldest first. *)
Record World : Type := mkWorld {
  local_context : gmap nat (option TextIO);
  rich_console_file : option TextIO;
  rich_console_no_color : bool;
  printed : list PrintCall
}.

Definition initial_world : World :=
  {| local_context := ∅; rich_console_file := None;
     rich_console_no_color := false; printed := [] |}.

(** A statement: from a state to a state and an outcome. *)
Definition M (A : Type) : Type := World -> World * outcome A.

#[global] Instance M_ret : MRet M := fun A a w => (w, Ok a).
#[global] Instance M_bind : MBind M := fun A B f m w =>
  match m w with
  | (w', Ok a) => f a w'
  | (w', Raise e) => (w', Raise e)
  | (w', OutOfFuel) => (w', OutOfFuel)
  end.

Definition raise {A} (e : exn) : M A := fun w => (w, Raise e).

(** [try: body finally: cleanup] *)
Definition try_finally {A} (body : M A) (cleanup : M unit) : M A := fun w =>
  let '(w1, r) := body w in
  match cleanup w1 with
  | (w2, Ok _) => (w2, r)
  | (w2, Raise e) => (w2, Raise e)
  | (w2, OutOfFuel) => (w2, OutOfFuel)
  end.

(** [getattr(local_context, 'output', None)] in thread [tid] *)
Definition get_console_output (tid : nat) : M (option TextIO) := fun w =>
  (w, Ok (default None (local_context w !! tid))).

(** [local_context.output = value] in thread [tid] *)
Definition set_local_output (tid : nat) (value : option TextIO) : M unit :=
  fun w =>
    ({| local_context := <[tid := value]> (local_context w);
        rich_console_file := rich_console_file w;
        rich_console_no_color := rich_console_no_color w;
        printed := printed w |}, Ok tt).

(** [with capture_console(filelike): body], run by thread [tid] *)
Definition capture_console {A} (tid : nat) (filelike : TextIO) (body : M A)
    : M A :=
  old_output ← get_console_output tid;
  _ ← set_local_output tid (Some filelike);
  try_finally body (set_local_output tid old_output).

(** Scopes inside scopes: [nested tid fs body] enters one scope per stream
    of [fs], the first outermost, around [body]. *)
Fixpoint nested {A} (tid : nat) (fs : list TextIO) (body : M A) : M A :=
  match fs with
  | [] => body
  | f :: fs' => capture_console tid f (nested tid fs' body)
  end.

(** The override thread [tid] sees in state [w]: what
    [get_console_output] returns there. *)
Definition override (tid : nat) (w : World) : option TextIO :=
  default None (local_context w !! tid).

(** [rich_console.file = value] *)
Definition set_rich_console_file (value : option TextIO) : M unit := fun w =>
  ({| local_context := local_context w;
      rich_console_file := value;
      rich_console_no_color := rich_console_no_color w;
      printed := printed w |}, Ok tt).

Definition disable_colors : M unit := fun w =>
  ({| local_context := local_context w;
      rich_console_file := rich_console_file w;
      rich_console_no_color := true;
      printed := printed w |}, Ok tt).

(** A call of [console] by a thread, and where a call in progress
    stands: before it points [rich_console.file] at the override (l.193),
    before the print (l.195), in the [finally] with the outcome of the
    print (l.197), or returned. *)
Record ConsoleCall : Type := mkConsoleCall {
  cc_tid : nat;
  cc_text : string;
  cc_args : list string
}.

Inductive position : Type :=
  | AtSetFile
  | AtPrint
  | AtResetFile (r : outcome unit)
  | Returned (r : outcome unit).

(** [rich_console.file = get_console_output()], l.193, in thread [tid] *)
Definition point_file_at_override (tid : nat) : M unit :=
  file ← get_console_output tid;
  set_rich_console_file file.

Section Backend.
(** The write behind [rich_console.print]: given the calls made before
    and the present one, the exception it ends in, if any. *)
Variable write_error : list PrintCall -> PrintCall -> option exn.

(** [rich_console.print(text, *args, **kwargs)] *)
Definition rich_console_print (text : string) (args : list string)
    : M unit := fun w =>
  let call := {| call_file := rich_console_file w;
                 call_no_color := rich_console_no_color w;
                 call_text := text; call_args := args |} in
  let w' := {| local_context := local_context w;
               rich_console_file := rich_console_file w;
               rich_console_no_color := rich_console_no_color w;
               printed := printed w ++ [call] |} in
  match write_error (printed w) call with
  | Some e => (w', Raise e)
  | None => (w', Ok tt)
  end.

Definition _patchable_console (tid : nat) (text : string)
    (args : list string) : M unit :=
  file ← get_console_output tid;
  _ ← set_rich_console_file file;
  try_finally (rich_console_print text args) (set_rich_console_file None).

Definition console (tid : nat) (text : string) (args : list string)
    : M unit :=
  _patchable_console tid text args.

(** One statement of a call in progress.  The statements of the calls of
    several threads can run in any order: [rich_console] is one object for
    all threads and the module takes no lock. *)
Definition step_call (c : ConsoleCall) (p : position) (w : World)
    : World * position :=
  match p with
  | AtSetFile => ((point_file_at_override (cc_tid c) w).1, AtPrint)
  | AtPrint =>
      let '(w', r) := rich_console_print (cc_text c) (cc_args c) w in
      (w', AtResetFile r)
  | AtResetFile r => ((set_rich_console_file None w).1, Returned r)
  | Returned r => (w, Returned r)
  end.

(** The calls in progress run by a schedule: each entry names the call
    that does its next statement. *)
Fixpoint run_schedule (schedule : list nat)
    (calls : list (ConsoleCall * position)) (w : World)
    : list (ConsoleCall * position) * World :=
  match schedule with
  | [] => (calls, w)
  | i :: rest =>
      match calls !! i with
      | Some (c, p) =>
          let '(w', p') := step_call c p w in
          run_schedule rest (<[i := (c, p')]> calls) w'
      | None => run_schedule rest calls w
      end
  end.

(** A call is in progress between its first and its last statement. *)
Definition in_progress (p : position) : bool :=
  match p with
  | AtPrint | AtResetFile _ => true
  | _ => false
  end.

(** Programs over the module: what threads call, one call after the
    other.  [Capture tid f p] is [with capture_console(f): p] in thread
    [tid]; [Throw e] raises. *)
Inductive prog : Type :=
  | Skip
  | Seq (p q : prog)
  | Capture (tid : nat) (filelike : TextIO) (body : prog)
  | Console (tid : nat) (text : string) (args : list string)
  | DisableColors
  | Throw (e : exn).

Fixpoint run (p : prog) : M unit :=
  match p with
  | Skip => mret tt
  | Seq p q => _ ← run p; run q
  | Capture tid filelike body => capture_console tid filelike (run body)
  | Console tid text args => console tid text args
  | DisableColors => disable_colors
  | Throw e => raise e
  end.

(** Does thread [tid] enter a [capture_console] anywhere in [p]? *)
Fixpoint captures (tid : nat) (p : prog) : bool :=
  match p with
  | Seq p q => captures tid p || captures tid q
  | Capture tid' _ body => bool_decide (tid' = tid) || captures tid body
  | _ => false
  end.
(** The streams the scopes of a program redirect to. *)
Fixpoint streams (p : prog) : list TextIO :=
  match p with
  | Seq p q => streams p ++ streams q
  | Capture _ filelike body => filelike :: streams body
  | _ => []
  end.
End Backend.

(** * Properties *)

(** ** [colorize] *)

Lemma length_append (s1 s2 : string) :
  String.length (s1 +:+ s2) = (String.length s1 + String.length s2)%nat.
Proof. induction s1 as [|c s1 IH]; simpl; [reflexivity | now rewrite IH]. Qed.

(** C9: [colorize] returns the text between the opening tag of the colour
    and the closing tag [[/]], whatever the colour and the text, and so
    never the bare text. *)
Theorem colorize_wraps_in_tags (color text : string) :
  colorize color text = "[" +:+ color +:+ "]" +:+ text +:+ "[/]"
  /\ colorize color text <> text
  /\ len (colorize color text) = len color + len text + 5.
Proof.
  assert (Hlen : len (colorize color text) = len color + len text + 5).
  { unfold colorize, len. rewrite !length_append. simpl. lia. }
  split; [reflexivity | split; [| exact Hlen]].
  intros Heq. rewrite Heq in Hlen. unfold len in Hlen. lia.
Qed.

(** ** Building a [TerminalTable] *)

Lemma init_unknown_type (table_type : string) (data : list (list string))
    (ttl : option string) (wrap_columns drop_columns : option (list Z)) :
  TABLE_TYPES !! table_type = None ->
  TerminalTable_init table_type data ttl wrap_columns drop_columns
  = Raise (KeyError table_type).
Proof.
  intros Hnone. unfold TerminalTable_init, _init_table, dict_getitem.
  rewrite Hnone. reflexivity.
Qed.

(** C2, as the code has it: a table type that is no key of [TABLE_TYPES]
    makes the construction raise [KeyError] with that name, at once and
    whatever the data. *)
Theorem unknown_table_type_raises_KeyError (table_type : string)
    (data : list (list string)) (ttl : option string)
    (wrap_columns drop_columns : option (list Z)) :
  TABLE_TYPES !! table_type = None ->
  TerminalTable_init table_type data ttl wrap_columns drop_columns
  = Raise (KeyError table_type).
Proof. apply init_unknown_type. Qed.

Lemma unknown_table_type_raises_KeyError_witness :
  TerminalTable_init "fancy" [["Col1"; "Col2"]; ["a"; "b"]] None None None
  = Raise (KeyError "fancy").
Proof.
  apply (unknown_table_type_raises_KeyError "fancy"). reflexivity.
Defined.

(** C2, as the claim has it, fails: the table type ["fancy"] is not
    supported and the construction does not raise [TerminalTableError]. *)
Lemma unknown_table_type_not_TerminalTableError :
  TABLE_TYPES !! "fancy" = None
  /\ ~ (exists msg,
          TerminalTable_init "fancy" [["Col1"; "Col2"]; ["a"; "b"]]
            None None None
          = Raise (TerminalTableError msg)).
Proof.
  split; [reflexivity |].
  intros [msg Hmsg]. rewrite init_unknown_type in Hmsg by reflexivity.
  discriminate Hmsg.
Qed.

(** C3: the lists [wrap_columns] and [drop_columns] do not reach the
    output.  For every rendering [rich] gives of a table, at every console
    and options (the terminal width is part of them), two constructions
    from the same data render alike whatever their lists are; so there is
    no reading [shown] of "column [j] is in the output" under which one
    list has the column dropped and another has it kept.  At the input
    with [wrap_columns=[1]] and [drop_columns=[2]], what is printed is the
    rendering [rich] gives of the whole table of three columns, the
    columns the lists name and the long cell included. *)
Theorem wrap_and_drop_columns_are_ignored
    (Console ConsoleOptions : Type)
    (Table_rich_console : Table -> Console -> ConsoleOptions -> list Segment)
    (console : Console) (options : ConsoleOptions)
    (table_type : string) (data : list (list string)) (ttl : option string)
    (wrap_columns drop_columns wrap_columns' drop_columns' : option (list Z)) :
  let render T :=
    __rich_console__ Console ConsoleOptions Table_rich_console T
      console options in
  (TerminalTable_init table_type data ttl wrap_columns drop_columns
     ≫= render : outcome (list Segment))
  = (TerminalTable_init table_type data ttl wrap_columns' drop_columns'
       ≫= render)
  /\ (forall (shown : list Segment -> nat -> Prop) (j : nat),
        ~ ((exists output,
              (TerminalTable_init table_type data ttl wrap_columns
                 drop_columns ≫= render) = Ok output
              /\ ~ shown output j)
           /\ (exists output,
                 (TerminalTable_init table_type data ttl wrap_columns'
                    drop_columns' ≫= render) = Ok output
                 /\ shown output j)))
  /\ (TerminalTable_init "plain"
        [["Id"; "Name"; "Description"];
         ["1"; "a"; "a very long description of the first entry"]]
        None (Some [1]) (Some [2]) ≫= render)
     = Ok (Table_rich_console
             (mkTable None ASCII true
                [mkColumn "Id" ["1"];
                 mkColumn "Name" ["a"];
                 mkColumn "Description"
                   ["a very long description of the first entry"]]
                [mkRow None false])
             console options).
Proof.
  intros render. split; [reflexivity | split; [| reflexivity]].
  intros shown j [(output & Hout & Hnot) (output' & Hout' & Hshown)].
  change (TerminalTable_init table_type data ttl wrap_columns' drop_columns')
    with (TerminalTable_init table_type data ttl wrap_columns drop_columns)
    in Hout'.
  rewrite Hout in Hout'. injection Hout' as <-. exact (Hnot Hshown).
Qed.

(** *** Rows and headers of the table that is built *)

Lemma headers_alter (f : Column -> Column) (i : nat) (cs : list Column) :
  (forall c, header (f c) = header c) ->
  header <$> alter f i cs = header <$> cs.
Proof.
  intros Hf. revert i. induction cs as [|c cs IH]; intros [|i]; simpl;
    try reflexivity.
  - now rewrite Hf.
  - f_equal. apply IH.
Qed.

Lemma add_cells_rows (cells : list (option string)) (i : nat) (t : Table) :
  rows (add_cells i cells t) = rows t.
Proof.
  revert i t. induction cells as [|r cells IH]; intros i t; simpl;
    [reflexivity |].
  rewrite IH. simpl. now destruct (i =? length (columns t))%nat.
Qed.

Lemma add_cells_headers (cells : list (option string)) (i : nat) (t : Table) :
  (header <$> columns t) `prefix_of` (header <$> columns (add_cells i cells t)).
Proof.
  revert i t. induction cells as [|r cells IH]; intros i t; simpl;
    [reflexivity |].
  etransitivity; [| apply IH]. simpl.
  rewrite headers_alter by reflexivity.
  destruct (i =? length (columns t))%nat; simpl; [| reflexivity].
  rewrite fmap_app. now apply prefix_app_r.
Qed.

Lemma add_row_rows (t : Table) (r : list string) :
  rows (add_row t r) = rows t ++ [mkRow None false].
Proof. unfold add_row. simpl. now rewrite add_cells_rows. Qed.

Lemma add_row_headers (t : Table) (r : list string) :
  (header <$> columns t) `prefix_of` (header <$> columns (add_row t r)).
Proof. unfold add_row. simpl. apply add_cells_headers. Qed.

Lemma add_rows_rows (rs : list (list string)) (t : Table) :
  length (rows (fold_left add_row rs t)) = (length (rows t) + length rs)%nat.
Proof.
  revert t. induction rs as [|r rs IH]; intros t; simpl; [lia |].
  rewrite IH, add_row_rows, length_app. simpl. lia.
Qed.

Lemma add_rows_headers (rs : list (list string)) (t : Table) :
  (header <$> columns t)
    `prefix_of` (header <$> columns (fold_left add_row rs t)).
Proof.
  revert t. induction rs as [|r rs IH]; intros t; simpl; [reflexivity |].
  etransitivity; [apply add_row_headers | apply IH].
Qed.

Lemma add_columns_spec (hs : list string) (t : Table) :
  header <$> columns (fold_left add_column hs t)
  = (header <$> columns t) ++ hs
  /\ rows (fold_left add_column hs t) = rows t.
Proof.
  revert t. induction hs as [|h hs IH]; intros t; simpl.
  - now rewrite app_nil_r.
  - destruct (IH (add_column t h)) as [Hc Hr]. rewrite Hc, Hr. simpl.
    rewrite fmap_app. simpl. now rewrite <- app_assoc.
Qed.

(** *** The cells of the table that is built *)

Lemma add_cells_columns (cells : list (option string))
    (pre post : list Column) (t : Table) :
  columns t = pre ++ post ->
  columns (add_cells (length pre) cells t)
  = pre ++ extend_columns (length (rows t)) cells post.
Proof.
  revert pre post t.
  induction cells as [|x cells IH]; intros pre post t Hcols;
    [exact Hcols |].
  cbn [add_cells extend_columns]. rewrite Hcols.
  destruct post as [|c post].
  - rewrite app_nil_r, Nat.eqb_refl.
    specialize (IH (pre ++ [add_cell (default "" x)
                              (mkColumn "" (replicate (length (rows t)) ""))])
                  []).
    rewrite length_app, Nat.add_1_r in IH. rewrite IH.
    + simpl. now rewrite <- app_assoc.
    + simpl. rewrite app_nil_r, <- (Nat.add_0_r (length pre)) at 1.
      rewrite alter_app_r. reflexivity.
  - destruct (Nat.eqb_spec (length pre) (length (pre ++ c :: post)))
      as [Hlen | _]; [rewrite length_app in Hlen; simpl in Hlen; lia |].
    specialize (IH (pre ++ [add_cell (default "" x) c]) post).
    rewrite length_app, Nat.add_1_r in IH. rewrite IH.
    + simpl. now rewrite <- app_assoc.
    + simpl. rewrite Hcols. rewrite <- (Nat.add_0_r (length pre)) at 1.
      rewrite alter_app_r, <- app_assoc. reflexivity.
Qed.

Lemma add_row_columns (t : Table) (r : list string) :
  columns (add_row t r)
  = extend_columns (length (rows t))
      ((Some <$> r) ++ replicate (length (columns t) - length r) None)
      (columns t).
Proof.
  unfold add_row. cbn [columns].
  exact (add_cells_columns _ [] (columns t) t eq_refl).
Qed.

Lemma length_extend_columns (n : nat) (cells : list (option string))
    (cs : list Column) :
  length (extend_columns n cells cs) = Nat.max (length cells) (length cs).
Proof.
  revert cs. induction cells as [|x cells IH]; intros cs; [reflexivity |].
  destruct cs as [|c cs]; simpl; rewrite IH; simpl; lia.
Qed.

(** The column a cell lands in keeps its cells and gets the new one at
    the end; a column opened for it starts with an empty cell per row. *)
Lemma extend_columns_lookup (n : nat) (cells : list (option string))
    (cs : list Column) (j : nat) (o : option string) :
  cells !! j = Some o ->
  exists c',
    extend_columns n cells cs !! j = Some c'
    /\ _cells c'
       = match cs !! j with
         | Some c => _cells c
         | None => replicate n ""
         end ++ [default "" o].
Proof.
  revert cs j. induction cells as [|x cells IH]; intros cs j Hj;
    [discriminate |].
  destruct j as [|j]; simpl in Hj.
  - injection Hj as ->. destruct cs as [|c cs]; simpl; eauto.
  - destruct cs as [|c cs]; simpl.
    + destruct (IH [] j Hj) as (c' & Hc' & Hcells). eauto.
    + apply IH, Hj.
Qed.

Lemma add_row_cells_lookup (t : Table) (r : list string) (j : nat) :
  (j < length r \/ j < length (columns t))%nat ->
  exists c',
    columns (add_row t r) !! j = Some c'
    /\ _cells c'
       = match columns t !! j with
         | Some c => _cells c
         | None => replicate (length (rows t)) ""
         end ++ [default "" (r !! j)].
Proof.
  intros Hj. rewrite add_row_columns.
  set (cells := (Some <$> r)
                  ++ replicate (length (columns t) - length r) None).
  assert (Hcell : cells !! j = Some (r !! j)).
  { subst cells. destruct (r !! j) as [x|] eqn:Hr.
    - apply lookup_app_l_Some. now rewrite list_lookup_fmap, Hr.
    - apply lookup_ge_None in Hr.
      rewrite lookup_app_r by (rewrite length_fmap; lia).
      rewrite length_fmap. apply lookup_replicate_2. lia. }
  destruct (extend_columns_lookup (length (rows t)) cells (columns t) j _
              Hcell) as (c' & Hc' & Hcells).
  eauto.
Qed.

Lemma add_row_rectangular (t : Table) (r : list string) :
  rectangular t -> rectangular (add_row t r).
Proof.
  unfold rectangular. intros Hrect. apply Forall_lookup. intros j c' Hc'.
  rewrite add_row_rows, length_app. simpl.
  assert (Hj : (j < length r \/ j < length (columns t))%nat).
  { apply lookup_lt_Some in Hc'.
    rewrite add_row_columns, length_extend_columns, length_app,
      length_fmap, length_replicate in Hc'. lia. }
  destruct (add_row_cells_lookup t r j Hj) as (c'' & Hc'' & Hcells).
  rewrite Hc' in Hc''. injection Hc'' as <-. rewrite Hcells, length_app.
  simpl. destruct (columns t !! j) as [c|] eqn:Hc.
  - rewrite (proj1 (Forall_lookup _ _) Hrect j c Hc). lia.
  - rewrite length_replicate. lia.
Qed.

(** A row that is added puts its strings in the new row, column by
    column, and leaves the cells of the rows before it where they are. *)
Lemma add_row_new_cells (t : Table) (r : list string) (j : nat) (x : string) :
  rectangular t -> r !! j = Some x ->
  cell_at (add_row t r) (length (rows t)) j = Some x.
Proof.
  intros Hrect Hr. unfold cell_at.
  destruct (add_row_cells_lookup t r j) as (c' & Hc' & Hcells);
    [left; now apply lookup_lt_Some in Hr |].
  rewrite Hc'. simpl. rewrite Hcells, Hr. simpl.
  destruct (columns t !! j) as [c|] eqn:Hc.
  - apply list_lookup_middle.
    symmetry. exact (proj1 (Forall_lookup _ _) Hrect j c Hc).
  - apply list_lookup_middle. now rewrite length_replicate.
Qed.

Lemma add_row_old_cells (t : Table) (r : list string) (i j : nat)
    (x : string) :
  cell_at t i j = Some x -> cell_at (add_row t r) i j = Some x.
Proof.
  unfold cell_at. intros Hcell.
  destruct (columns t !! j) as [c|] eqn:Hc; [| discriminate]. simpl in Hcell.
  destruct (add_row_cells_lookup t r j) as (c' & Hc' & Hcells);
    [right; now apply lookup_lt_Some in Hc |].
  rewrite Hc'. simpl. rewrite Hcells, Hc. now apply lookup_app_l_Some.
Qed.

Lemma add_rows_old_cells (rs : list (list string)) (t : Table) (i j : nat)
    (x : string) :
  cell_at t i j = Some x -> cell_at (fold_left add_row rs t) i j = Some x.
Proof.
  revert t. induction rs as [|r rs IH]; intros t Hcell; [exact Hcell |].
  simpl. apply IH. now apply add_row_old_cells.
Qed.

Lemma add_rows_cells (rs : list (list string)) (t : Table) (i j : nat)
    (r : list string) (x : string) :
  rectangular t -> rs !! i = Some r -> r !! j = Some x ->
  cell_at (fold_left add_row rs t) (length (rows t) + i) j = Some x.
Proof.
  revert t i. induction rs as [|r0 rs IH]; intros t i Hrect Hi Hj;
    [discriminate |].
  destruct i as [|i]; simpl in Hi.
  - injection Hi as ->. simpl. rewrite Nat.add_0_r.
    apply add_rows_old_cells. now apply add_row_new_cells.
  - simpl. specialize (IH (add_row t r0) i (add_row_rectangular t r0 Hrect)
                         Hi Hj).
    rewrite add_row_rows, length_app in IH. simpl in IH.
    now replace (length (rows t) + S i)%nat
      with (length (rows t) + 1 + i)%nat by lia.
Qed.

Lemma add_columns_rectangular (hs : list string) (t : Table) :
  rows t = [] -> rectangular t -> rectangular (fold_left add_column hs t).
Proof.
  revert t. induction hs as [|h hs IH]; intros t Hrows Hrect; [exact Hrect |].
  simpl. apply IH; [exact Hrows |].
  unfold rectangular, add_column. simpl. apply Forall_app.
  split; [exact Hrect |]. constructor; [| constructor]. now rewrite Hrows.
Qed.

(** C10: with a supported table type, an empty [table_data] makes the
    construction fail on [table_data[0]]; otherwise the first inner list
    gives the headers of the first columns and each other inner list gives
    one row, holding its strings column by column, so the table has
    [len(table_data) - 1] rows. *)
Theorem table_data_header_and_rows (table_type : string)
    (options : TableOptions) (ttl : option string)
    (wrap_columns drop_columns : option (list Z)) :
  TABLE_TYPES !! table_type = Some options ->
  TerminalTable_init table_type [] ttl wrap_columns drop_columns
  = Raise IndexError
  /\ forall (head_row : list string) (data_rows : list (list string)),
       exists T,
         TerminalTable_init table_type (head_row :: data_rows) ttl
           wrap_columns drop_columns = Ok T
         /\ table_data T = head_row :: data_rows
         /\ header <$> take (length head_row) (columns (table T)) = head_row
         /\ length (rows (table T)) = length data_rows
         /\ Z.of_nat (length (rows (table T)))
            = Z.of_nat (length (table_data T)) - 1
         /\ forall (i j : nat) (r : list string) (x : string),
              data_rows !! i = Some r -> r !! j = Some x ->
              cell_at (table T) i j = Some x.
Proof.
  intros Hopt. unfold TerminalTable_init, _init_table, dict_getitem.
  rewrite Hopt. simpl. split; [reflexivity |].
  intros head_row data_rows. eexists. split; [reflexivity |]. simpl.
  set (t0 := Table_new ttl options).
  destruct (add_columns_spec head_row t0) as [Hc Hr]. simpl in Hc.
  assert (Hrows : length (rows (fold_left add_row data_rows
                                  (fold_left add_column head_row t0)))
                  = length data_rows).
  { rewrite add_rows_rows, Hr. reflexivity. }
  split; [reflexivity |].
  split; [| split; [exact Hrows | split; [lia |]]].
  - destruct (add_rows_headers data_rows (fold_left add_column head_row t0))
      as [k Hk].
    rewrite Hc in Hk. rewrite fmap_take, Hk.
    apply take_app_length.
  - intros i j r x Hi Hj.
    pose proof (add_rows_cells data_rows (fold_left add_column head_row t0)
                  i j r x) as Hcell.
    rewrite Hr in Hcell. apply Hcell; [| exact Hi | exact Hj].
    apply add_columns_rectangular; [reflexivity | constructor].
Qed.

Lemma table_data_header_and_rows_witness :
  TerminalTable_init "plain" [] None None None = Raise IndexError
  /\ forall (head_row : list string) (data_rows : list (list string)),
       exists T,
         TerminalTable_init "plain" (head_row :: data_rows) None None None
         = Ok T
         /\ table_data T = head_row :: data_rows
         /\ header <$> take (length head_row) (columns (table T)) = head_row
         /\ length (rows (table T)) = length data_rows
         /\ Z.of_nat (length (rows (table T)))
            = Z.of_nat (length (table_data T)) - 1
         /\ forall (i j : nat) (r : list string) (x : string),
              data_rows !! i = Some r -> r !! j = Some x ->
              cell_at (table T) i j = Some x.
Proof.
  apply (table_data_header_and_rows "plain" (mkOptions ASCII None)).
  reflexivity.
Defined.

(** ** The override of a thread *)

Lemma get_console_output_spec (tid : nat) (w : World) :
  get_console_output tid w = (w, Ok (override tid w)).
Proof. reflexivity. Qed.

Lemma override_set_same (tid : nat) (v : option TextIO) (w : World) :
  override tid (set_local_output tid v w).1 = v.
Proof. unfold override. simpl. now rewrite lookup_insert_eq. Qed.

Lemma override_set_other (tid tid' : nat) (v : option TextIO) (w : World) :
  tid' <> tid ->
  local_context (set_local_output tid v w).1 !! tid' = local_context w !! tid'.
Proof. intros Hne. simpl. now rewrite lookup_insert_ne. Qed.

(** What [capture_console] does, step by step: the body starts in the
    state with the override set, and the state it ends in gets the old
    override back; the outcome is the body's. *)
Lemma capture_console_unfold {A} (tid : nat) (filelike : TextIO)
    (body : M A) (w : World) :
  let w_in := (set_local_output tid (Some filelike) w).1 in
  capture_console tid filelike body w
  = ((set_local_output tid (override tid w) (body w_in).1).1, (body w_in).2).
Proof.
  unfold capture_console, mbind, M_bind, try_finally. simpl.
  destruct (body _) as [w1 r]. reflexivity.
Qed.

(** At any depth, the scopes around a body give back the override of
    before the outermost one. *)
Lemma nested_restores_override {A} (tid : nat) (f : TextIO)
    (fs : list TextIO) (body : M A) (w : World) :
  override tid (nested tid (f :: fs) body w).1 = override tid w.
Proof. simpl. rewrite capture_console_unfold. apply override_set_same. Qed.

(** C1: leaving a [capture_console] scope gives the thread the override
    it had when the scope was entered, whatever the body did (it may hold
    scopes of its own, to any depth, and it may raise); the body runs with
    the new stream as override, its outcome is the outcome of the scope,
    and no other thread's override is touched by entering or leaving.  The
    same holds with any number of further scopes between this one and the
    body. *)
Theorem capture_console_restores_override {A} (tid : nat)
    (filelike : TextIO) (body : M A) (w : World) :
  let w_in := (set_local_output tid (Some filelike) w).1 in
  let w_out := (capture_console tid filelike body w).1 in
  override tid w_out = override tid w
  /\ override tid w_in = Some filelike
  /\ (capture_console tid filelike body w).2 = (body w_in).2
  /\ (forall e, (body w_in).2 = Raise e ->
        (capture_console tid filelike body w).2 = Raise e
        /\ override tid w_out = override tid w)
  /\ (forall tid', tid' <> tid ->
        local_context w_in !! tid' = local_context w !! tid'
        /\ local_context w_out !! tid' = local_context (body w_in).1 !! tid')
  /\ forall fs : list TextIO,
       override tid (nested tid (filelike :: fs) body w).1 = override tid w.
Proof.
  intros w_in w_out.
  assert (Hnested : forall fs : list TextIO,
            override tid (nested tid (filelike :: fs) body w).1
            = override tid w) by (intros fs; apply nested_restores_override).
  revert Hnested. subst w_out. rewrite capture_console_unfold. simpl.
  fold w_in. intros Hnested.
  assert (Hback : override tid
                    (set_local_output tid (override tid w) (body w_in).1).1
                  = override tid w) by apply override_set_same.
  split; [exact Hback |].
  split; [apply override_set_same |].
  split; [reflexivity |].
  split; [intros e He; split; [exact He | exact Hback] |].
  split; [| exact Hnested].
  intros tid' Hne. split.
  - now apply override_set_other.
  - now apply (override_set_other tid tid' (override tid w) (body w_in).1).
Qed.

Lemma capture_console_restores_override_witness :
  (capture_console 1 (FileObj 7) (raise (A := unit) (IOError 32))
     initial_world).2 = Raise (IOError 32)
  /\ override 1
       (capture_console 1 (FileObj 7) (raise (A := unit) (IOError 32))
          initial_world).1
     = override 1 initial_world.
Proof.
  apply (capture_console_restores_override 1 (FileObj 7)
           (raise (A := unit) (IOError 32)) initial_world).
  reflexivity.
Defined.

(** ** [get_console_output] *)

Section BackendFacts.
Variable write_error : list PrintCall -> PrintCall -> option exn.

Lemma console_unfold (tid : nat) (txt : string) (args : list string)
    (w : World) :
  let call := mkPrintCall (override tid w) (rich_console_no_color w)
                txt args in
  console write_error tid txt args w
  = ({| local_context := local_context w;
        rich_console_file := None;
        rich_console_no_color := rich_console_no_color w;
        printed := printed w ++ [call] |},
     match write_error (printed w) call with
     | Some e => Raise e
     | None => Ok tt
     end).
Proof.
  unfold console, _patchable_console, mbind, M_bind, try_finally,
    rich_console_print. simpl. fold (override tid w).
  destruct (write_error _ _); reflexivity.
Qed.

(** A thread that enters no scope in [p] has the same entry in
    [local_context] after [p] as before. *)
Lemma run_keeps_local_output (tid : nat) (p : prog) (w : World) :
  captures tid p = false ->
  local_context (run write_error p w).1 !! tid = local_context w !! tid.
Proof.
  revert w. induction p as [| p IHp q IHq | tid' f body IH | tid' txt args
                           | | e]; intros w Hc; simpl in *;
    try reflexivity.
  - apply orb_false_iff in Hc as [Hp Hq].
    unfold mbind, M_bind. specialize (IHp w Hp).
    destruct (run write_error p w) as [w1 [[]| e |]]; simpl in *;
      try exact IHp.
    now rewrite IHq.
  - apply orb_false_iff in Hc as [Hne Hb]. apply bool_decide_eq_false in Hne.
    rewrite capture_console_unfold. simpl.
    rewrite lookup_insert_ne by exact Hne.
    rewrite IH by exact Hb. simpl. now rewrite lookup_insert_ne.
  - now rewrite console_unfold.
Qed.

(** C5: [get_console_output] returns and leaves the state as it is, in
    every state; and for a thread that has entered no [capture_console]
    in the program run so far it returns [None]. *)
Theorem get_console_output_is_a_pure_read (tid : nat) :
  (forall w, get_console_output tid w = (w, Ok (override tid w)))
  /\ (get_console_output tid initial_world = (initial_world, Ok None))
  /\ forall p, captures tid p = false ->
       get_console_output tid (run write_error p initial_world).1
       = ((run write_error p initial_world).1, Ok None).
Proof.
  split; [reflexivity | split; [reflexivity |]].
  intros p Hc. rewrite get_console_output_spec. f_equal. f_equal.
  unfold override. now rewrite run_keeps_local_output.
Qed.

(** ** [console] *)

(** Calls that run one after the other: a call of [console] prints once,
    with the console pointed at the override the calling thread has at
    that moment, and leaves the console with no file set, whether the
    print returned or raised; the overrides are as before.  So in two
    calls in a row the second prints to the override of its own thread,
    not to what the first one set. *)
Lemma console_points_file_for_one_call (tid tid' : nat)
    (txt txt' : string) (args args' : list string) (w : World) :
  let w1 := (console write_error tid txt args w).1 in
  let w2 := (console write_error tid' txt' args' w1).1 in
  rich_console_file w1 = None
  /\ printed w1
     = printed w ++ [mkPrintCall (override tid w) (rich_console_no_color w)
                       txt args]
  /\ local_context w1 = local_context w
  /\ rich_console_file w2 = None
  /\ printed w2
     = printed w
         ++ [mkPrintCall (override tid w) (rich_console_no_color w) txt args;
             mkPrintCall (override tid' w) (rich_console_no_color w)
               txt' args'].
Proof.
  intros w1 w2. subst w2 w1. rewrite !console_unfold. simpl.
  repeat split; try reflexivity.
  rewrite <- app_assoc. reflexivity.
Qed.

(** C7: the outcome of [console] is the outcome of the one print it
    makes: the exception of a failed write as it is, and [None] (the unit
    value) otherwise; the print is made once. *)
Theorem console_propagates_write_errors (tid : nat) (txt : string)
    (args : list string) (w : World) :
  let call := mkPrintCall (override tid w) (rich_console_no_color w)
                txt args in
  (console write_error tid txt args w).2
  = match write_error (printed w) call with
    | Some e => Raise e
    | None => Ok tt
    end
  /\ printed (console write_error tid txt args w).1 = printed w ++ [call]
  /\ length (printed (console write_error tid txt args w).1)
     = S (length (printed w)).
Proof.
  intros call. subst call. rewrite console_unfold. simpl.
  repeat split. rewrite length_app. simpl. lia.
Qed.

End BackendFacts.

(** A print inside a scope goes to the stream of the scope, the next one
    outside it to no stream, and a failed write ends the program with the
    override given back. *)
Example console_after_scope :
  call_file <$> printed
    (run (fun _ _ => None)
       (Seq (Capture 1 (FileObj 7) (Console 1 "inside" []))
            (Console 1 "outside" [])) initial_world).1
  = [Some (FileObj 7); None].
Proof. reflexivity. Qed.

Example console_broken_pipe :
  let r := run (fun _ call =>
                  if bool_decide (call_file call = Some (FileObj 7))
                  then Some (IOError 32) else None)
             (Capture 1 (FileObj 7) (Console 1 "inside" [])) initial_world in
  r.2 = Raise (IOError 32)
  /\ override 1 r.1 = None
  /\ rich_console_file r.1 = None.
Proof. repeat split. Qed.

Lemma get_console_output_is_a_pure_read_witness :
  get_console_output 2
    (run (fun _ _ => None)
       (Seq (Capture 1 (FileObj 7) (Console 1 "captured" []))
            (Console 2 "plain" [])) initial_world).1
  = ((run (fun _ _ => None)
        (Seq (Capture 1 (FileObj 7) (Console 1 "captured" []))
             (Console 2 "plain" [])) initial_world).1, Ok None).
Proof.
  apply (get_console_output_is_a_pure_read (fun _ _ => None) 2).
  reflexivity.
Defined.

(** ** [Segment.split_lines] and the porcelain rendering *)

Lemma partition_nl_spec (s : string) :
  let '(before, sep, after) := partition_nl s in
  str_any (Ascii.eqb newline) before = false
  /\ (String.length after <= String.length s - 1)%nat.
Proof.
  induction s as [|c s IH]; [split; [reflexivity | simpl; lia] |].
  cbn [partition_nl]. destruct (Ascii.eqb c newline) eqn:Hc.
  - split; [reflexivity | simpl; lia].
  - destruct (partition_nl s) as [[before sep] after].
    destruct IH as [Hb Ha]. cbn [str_any String.length].
    rewrite Hb, Ascii.eqb_sym, Hc. split; [reflexivity | lia].
Qed.

(** The loop over one text ends within [len(text)] passes, and it yields
    and leaves only whole segments. *)
Lemma split_text_whole (fuel : nat) (txt : string) (sty : option string)
    (yielded : list (list Segment)) (line : list Segment) :
  (String.length txt <= fuel)%nat ->
  Forall (Forall whole) yielded -> Forall whole line ->
  exists yielded' line',
    split_text fuel txt sty yielded line = Ok (yielded', line')
    /\ Forall (Forall whole) yielded' /\ Forall whole line'.
Proof.
  revert txt yielded line.
  induction fuel as [|fuel IH]; intros txt yielded line Hfuel Hy Hl.
  - destruct txt; simpl in Hfuel; [| lia]. simpl. eauto.
  - destruct txt as [|c txt]; [simpl; eauto |].
    cbn [split_text].
    pose proof (partition_nl_spec (String c txt)) as Hp.
    destruct (partition_nl (String c txt)) as [[before sep] after].
    destruct Hp as [Hb Ha]. simpl in Ha, Hfuel.
    assert (Hl1 : Forall whole
                    (if truthy before then line ++ [mkSegment before sty None]
                     else line)).
    { destruct (truthy before); [| exact Hl].
      apply Forall_app. split; [exact Hl |].
      constructor; [| constructor]. unfold whole. simpl. now rewrite Hb. }
    destruct (truthy sep).
    + apply IH; [lia | | constructor].
      apply Forall_app. split; [exact Hy |]. now constructor.
    + apply IH; [lia | exact Hy | exact Hl1].
Qed.

Lemma split_segments_whole (segments : list Segment)
    (yielded : list (list Segment)) (line : list Segment) :
  Forall (Forall whole) yielded -> Forall whole line ->
  exists yielded' line',
    split_segments segments yielded line = Ok (yielded', line')
    /\ Forall (Forall whole) yielded' /\ Forall whole line'.
Proof.
  revert yielded line.
  induction segments as [|seg segments IH]; intros yielded line Hy Hl;
    simpl; [eauto |].
  destruct (str_any (Ascii.eqb newline) (text seg) && negb (has_control seg))
    eqn:Hseg.
  - destruct (split_text_whole (String.length (text seg)) (text seg)
                (style seg) yielded line) as (y' & l' & Heq & Hy' & Hl');
      [lia | exact Hy | exact Hl |].
    rewrite Heq. simpl. now apply IH.
  - apply IH; [exact Hy |]. apply Forall_app. split; [exact Hl |].
    now constructor.
Qed.

(** [split_lines] returns, and every line it yields is made of whole
    segments. *)
Lemma split_lines_whole (segments : list Segment) :
  exists lines,
    split_lines segments = Ok lines /\ Forall (Forall whole) lines.
Proof.
  unfold split_lines.
  destruct (split_segments_whole segments [] [])
    as (y & l & Heq & Hy & Hl); [constructor | constructor |].
  rewrite Heq. simpl. eexists. split; [reflexivity |].
  destruct l; [exact Hy |].
  apply Forall_app. split; [exact Hy |]. now constructor.
Qed.

(** Whole segments go to the open line as they are. *)
Lemma split_segments_whole_prefix (line segments : list Segment)
    (yielded : list (list Segment)) (cur : list Segment) :
  Forall whole line ->
  split_segments (line ++ segments) yielded cur
  = split_segments segments yielded (cur ++ line).
Proof.
  intros Hline. revert cur.
  induction Hline as [|seg line Hseg _ IH]; intros cur; simpl.
  - now rewrite app_nil_r.
  - unfold whole in Hseg. rewrite Hseg, IH, <- app_assoc. reflexivity.
Qed.

(** [Segment.line()] closes the open line. *)
Lemma split_segments_line (segments : list Segment)
    (yielded : list (list Segment)) (cur : list Segment) :
  split_segments (Segment_line :: segments) yielded cur
  = split_segments segments (yielded ++ [cur]) [].
Proof. reflexivity. Qed.

(** Lines of whole segments, each followed by [Segment.line()], are
    split into themselves. *)
Lemma split_segments_joined (lines : list (list Segment))
    (yielded : list (list Segment)) :
  Forall (Forall whole) lines ->
  split_segments (concat ((fun line => line ++ [Segment_line]) <$> lines))
    yielded []
  = Ok (yielded ++ lines, []).
Proof.
  intros Hlines. revert yielded.
  induction Hlines as [|line lines Hline _ IH]; intros yielded; simpl.
  - now rewrite app_nil_r.
  - rewrite <- app_assoc, split_segments_whole_prefix by exact Hline.
    simpl app. rewrite split_segments_line, IH, <- app_assoc. reflexivity.
Qed.

Section RenderFacts.
Variables Console ConsoleOptions : Type.
Variable Table_rich_console :
  Table -> Console -> ConsoleOptions -> list Segment.

(** C8: the rendering of a porcelain table returns, and the lines of what
    it yields are the lines of the table's own rendering that have a
    segment with visible text, so each of them has one. *)
Theorem porcelain_has_no_blank_lines (self : TerminalTable)
    (console : Console) (options : ConsoleOptions) :
  type self = "porcelain" ->
  exists output lines table_lines,
    __rich_console__ Console ConsoleOptions Table_rich_console self
      console options = Ok output
    /\ split_lines output = Ok lines
    /\ Forall (fun line => Exists (fun seg => strip (text seg) <> "") line)
         lines
    /\ split_lines (Table_rich_console (table self) console options)
       = Ok table_lines
    /\ lines = filter (fun line => has_visible_text line = true) table_lines.
Proof.
  intros Htype. unfold __rich_console__. rewrite Htype. simpl.
  destruct (split_lines_whole
              (Table_rich_console (table self) console options))
    as (table_lines & Hsplit & Hwhole).
  rewrite Hsplit. simpl.
  set (kept := filter (fun line => has_visible_text line = true) table_lines).
  exists (concat ((fun line => line ++ [Segment_line]) <$> kept)), kept,
    table_lines.
  split; [reflexivity |].
  assert (Hkept : Forall (Forall whole) kept).
  { apply Forall_forall. intros line Hin.
    apply list_elem_of_filter in Hin as [_ Hin].
    revert line Hin. now apply Forall_forall. }
  split.
  { unfold split_lines. rewrite split_segments_joined by exact Hkept.
    reflexivity. }
  split; [| split; reflexivity].
  apply Forall_forall. intros line Hin.
  apply list_elem_of_filter in Hin as [Hvis _].
  unfold has_visible_text in Hvis. apply existsb_exists in Hvis.
  destruct Hvis as (seg & Hseg & Htext).
  apply Exists_exists. exists seg. split; [now apply list_elem_of_In |].
  intros Hempty. rewrite Hempty in Htext. discriminate Htext.
Qed.

End RenderFacts.

(** ** [textwrap.wrap] and [word_wrap] *)

Lemma len_nonneg (s : string) : 0 <= len s.
Proof. unfold len. lia. Qed.

Lemma length_str_take (n : nat) (s : string) :
  String.length (str_take n s) = Nat.min n (String.length s).
Proof.
  revert s. induction n as [|n IH]; intros [|c s]; simpl; try reflexivity.
  now rewrite IH.
Qed.

Lemma length_str_drop (n : nat) (s : string) :
  String.length (str_drop n s) = (String.length s - n)%nat.
Proof.
  revert s. induction n as [|n IH]; intros [|c s]; simpl; try reflexivity.
  apply IH.
Qed.

Lemma len_slice_to (e : Z) (s : string) :
  0 <= e -> len (slice_to e s) = Z.min e (len s).
Proof.
  intros He. unfold slice_to, len.
  destruct (Z.ltb_spec e 0); [lia |]. rewrite length_str_take. lia.
Qed.

Lemma len_slice_from (b : Z) (s : string) :
  0 <= b -> len (slice_from b s) = Z.max 0 (len s - b).
Proof.
  intros Hb. unfold slice_from, len.
  destruct (Z.ltb_spec b 0); [lia |]. rewrite length_str_drop. lia.
Qed.

Lemma rfind_char_bounds (c : ascii) (s : string) :
  -1 <= rfind_char c s < len s \/ (s = "" /\ rfind_char c s = -1).
Proof.
  induction s as [|a s IH]; [right; split; reflexivity |]. left.
  cbn [rfind_char]. unfold len in *. cbn [String.length].
  destruct (Z.leb_spec 0 (rfind_char c s)).
  - destruct IH as [IH | [-> IH]]; [lia | simpl in *; lia].
  - destruct (Ascii.eqb a c); lia.
Qed.

Lemma rfind_lt (c : ascii) (e : Z) (s : string) :
  0 <= e -> rfind c e s < e \/ rfind c e s = -1.
Proof.
  intros He. unfold rfind.
  pose proof (len_slice_to e s He) as Hlen.
  destruct (rfind_char_bounds c (slice_to e s)) as [H | [_ H]]; [| now right].
  left. lia.
Qed.

Lemma sum_len_app (l1 l2 : list string) :
  sum_len (l1 ++ l2) = sum_len l1 + sum_len l2.
Proof.
  induction l1 as [|c l1 IH]; simpl; [reflexivity |]. rewrite IH. lia.
Qed.

Lemma sum_len_nonneg (l : list string) : 0 <= sum_len l.
Proof.
  induction l as [|c l IH]; simpl; [lia |]. pose proof (len_nonneg c). lia.
Qed.

Lemma len_append (s1 s2 : string) : len (s1 +:+ s2) = len s1 + len s2.
Proof. unfold len. rewrite length_append. lia. Qed.

Lemma len_join_empty (l : list string) : len (join "" l) = sum_len l.
Proof.
  induction l as [|c [|d l] IH]; [reflexivity | |].
  - unfold sum_len. cbn [join fold_right]. lia.
  - change (join "" (c :: d :: l)) with (c +:+ "" +:+ join "" (d :: l)).
    change (sum_len (c :: d :: l)) with (len c + sum_len (d :: l)).
    rewrite !len_append, IH. change (len "") with 0. lia.
Qed.

Lemma sum_len_removelast (l : list string) :
  sum_len (removelast l) <= sum_len l.
Proof.
  induction l as [|c [|d l] IH]; simpl in *; [lia | | lia].
  pose proof (len_nonneg c). lia.
Qed.

Lemma sum_len_drop_trailing_blank (l : list string) :
  sum_len (drop_trailing_blank l) <= sum_len l.
Proof.
  unfold drop_trailing_blank. destruct (last l) as [c|]; [| lia].
  destruct (is_blank c); [apply sum_len_removelast | lia].
Qed.

Lemma chunks_weight_app (l1 l2 : list string) :
  chunks_weight (l1 ++ l2) = (chunks_weight l1 + chunks_weight l2)%nat.
Proof.
  induction l1 as [|c l1 IH]; simpl; [reflexivity |]. rewrite IH. lia.
Qed.

(** The inner loop pops a prefix of the stack that fits on the line, and
    stops at a chunk that does not. *)
Lemma fill_line_spec (width : Z) (chunks cur_line : list string)
    (cur_len : Z) :
  exists popped rest,
    chunks = popped ++ rest
    /\ fill_line width chunks cur_line cur_len
       = (rest, cur_line ++ popped, cur_len + sum_len popped)
    /\ (cur_len <= width -> cur_len + sum_len popped <= width)
    /\ match rest with
       | c :: _ => width < cur_len + sum_len popped + len c
       | [] => True
       end.
Proof.
  revert cur_line cur_len.
  induction chunks as [|c chunks IH]; intros cur_line cur_len.
  - exists [], []. simpl. rewrite app_nil_r, Z.add_0_r. repeat split. lia.
  - cbn [fill_line]. destruct (Z.leb_spec (cur_len + len c) width) as [Hfit|Hno].
    + destruct (IH (cur_line ++ [c]) (cur_len + len c))
        as (popped & rest & Hch & Heq & Hle & Hstop).
      exists (c :: popped), rest. simpl.
      rewrite Heq, <- app_assoc, Hch. simpl.
      replace (cur_len + (len c + sum_len popped))
        with (cur_len + len c + sum_len popped) by lia.
      repeat split; [lia | exact Hstop].
    + exists [], (c :: chunks). simpl. rewrite app_nil_r, Z.add_0_r.
      repeat split; lia.
Qed.

(** With a width of at least 1, [_handle_long_word] cuts a piece that
    fits in what is left of the line, and a piece of at least one
    character when the line is empty. *)
Lemma handle_long_word_spec (width cur_len : Z) (c : string)
    (rest cur_line : list string) :
  1 <= width -> 0 <= cur_len <= width ->
  exists end_,
    0 <= end_ <= width - cur_len
    /\ (cur_len = 0 -> 1 <= end_)
    /\ _handle_long_word (c :: rest) cur_line cur_len width
       = (slice_from end_ c :: rest, cur_line ++ [slice_to end_ c]).
Proof.
  intros Hw Hcur. unfold _handle_long_word.
  destruct (Z.ltb_spec width 1) as [|_]; [lia |].
  set (space_left := width - cur_len).
  set (hyphen := rfind hyphen_char space_left c).
  destruct ((space_left <? len c) && (0 <? hyphen)
            && str_any (fun a => negb (Ascii.eqb a hyphen_char))
                 (slice_to hyphen c)) eqn:Hcond.
  - apply andb_true_iff in Hcond as [Hcond _].
    apply andb_true_iff in Hcond as [_ Hpos]. apply Z.ltb_lt in Hpos.
    destruct (rfind_lt hyphen_char space_left c) as [Hlt | Hm1];
      [subst space_left; lia | | fold hyphen in Hm1; lia].
    fold hyphen in Hlt. exists (hyphen + 1). repeat split; lia.
  - exists space_left. subst space_left. repeat split; lia.
Qed.

Lemma break_long_word_spec (width cur_len : Z)
    (chunks cur_line : list string) :
  1 <= width -> 0 <= cur_len <= width -> sum_len cur_line = cur_len ->
  (chunks_weight (break_long_word width chunks cur_line cur_len).1
   <= chunks_weight chunks)%nat
  /\ sum_len (break_long_word width chunks cur_line cur_len).2 <= width
  /\ (cur_len = 0 ->
      match chunks with c :: _ => width < len c | [] => False end ->
      (chunks_weight (break_long_word width chunks cur_line cur_len).1
       < chunks_weight chunks)%nat).
Proof.
  intros Hw Hcur Hsum. unfold break_long_word.
  destruct chunks as [|c rest]; [simpl; repeat split; (lia || tauto) |].
  destruct (Z.ltb_spec width (len c)) as [Hlong | Hshort];
    [| simpl; repeat split; lia].
  destruct (handle_long_word_spec width cur_len c rest cur_line Hw Hcur)
    as (end_ & Hend & Hpos & Heq).
  rewrite Heq. cbn [fst snd chunks_weight fold_right].
  pose proof (len_slice_from end_ c (proj1 Hend)) as Hfrom.
  pose proof (len_slice_to end_ c (proj1 Hend)) as Hto.
  unfold len in Hfrom, Hto, Hlong.
  rewrite sum_len_app. unfold sum_len at 2. cbn [fold_right]. unfold len at 1.
  repeat split; try lia.
Qed.

Lemma drop_leading_blank_weight (chunks lines : list string) :
  (chunks_weight (drop_leading_blank chunks lines) < chunks_weight chunks)%nat
  \/ drop_leading_blank chunks lines = chunks.
Proof.
  unfold drop_leading_blank. destruct chunks as [|c rest]; [now right |].
  destruct (is_blank c && negb (bool_decide (lines = []))); [| now right].
  left. simpl. lia.
Qed.

(** One pass of the outer loop, with a width of at least 1, makes the
    stack lighter and adds at most one line, which fits the width. *)
Lemma wrap_one_line_spec (width : Z) (chunks lines : list string) :
  1 <= width -> chunks <> [] ->
  (chunks_weight (wrap_one_line width chunks lines).1
   < chunks_weight chunks)%nat
  /\ (Forall (fun line => len line <= width) lines ->
      Forall (fun line => len line <= width)
        (wrap_one_line width chunks lines).2).
Proof.
  intros Hw Hne. unfold wrap_one_line.
  destruct (fill_line_spec width (drop_leading_blank chunks lines) [] 0)
    as (popped & rest & Hch & Heq & Hle & Hstop).
  rewrite Heq. simpl app. rewrite Z.add_0_l in *.
  pose proof (sum_len_nonneg popped) as Hpop.
  destruct (break_long_word_spec width (sum_len popped) rest popped Hw)
    as (Hweight & Hsum & Hstrict); [lia | reflexivity |].
  destruct (break_long_word width rest popped (sum_len popped))
    as [chunks3 cur_line1]. cbn [fst snd] in *.
  pose proof (sum_len_drop_trailing_blank cur_line1) as Hdrop.
  assert (Hchunks : (chunks_weight chunks3 < chunks_weight chunks)%nat).
  { pose proof (f_equal chunks_weight Hch) as Hwch.
    rewrite chunks_weight_app in Hwch.
    destruct (drop_leading_blank_weight chunks lines) as [Hlt | Hsame];
      [lia |].
    rewrite Hsame in *. destruct popped as [|p popped].
    - simpl in Hch. subst rest. apply Hstrict; [reflexivity |].
      destruct chunks as [|c chunks]; [congruence |]. simpl in Hstop. lia.
    - simpl in Hwch. lia. }
  destruct (drop_trailing_blank cur_line1) as [|l cur_line2] eqn:Hline;
    cbn [fst snd]; (split; [exact Hchunks |]); [tauto |].
  intros Hall. apply Forall_app. split; [exact Hall |].
  constructor; [| constructor]. rewrite len_join_empty. lia.
Qed.

(** The outer loop ends within [chunks_weight] passes, with lines that
    fit the width. *)
Lemma wrap_loop_spec (width : Z) (fuel : nat) (chunks lines : list string) :
  1 <= width -> (chunks_weight chunks <= fuel)%nat ->
  Forall (fun line => len line <= width) lines ->
  exists lines',
    wrap_loop fuel width chunks lines = Ok lines'
    /\ Forall (fun line => len line <= width) lines'.
Proof.
  intros Hw. revert chunks lines.
  induction fuel as [|fuel IH]; intros chunks lines Hfuel Hall.
  - destruct chunks as [|c chunks]; [simpl; eauto | simpl in Hfuel; lia].
  - destruct chunks as [|c chunks]; [simpl; eauto |].
    cbn [wrap_loop].
    destruct (wrap_one_line_spec width (c :: chunks) lines Hw)
      as [Hlt Hfit]; [discriminate |].
    destruct (wrap_one_line width (c :: chunks) lines) as [chunks' lines'].
    cbn [fst snd] in *. apply IH; [lia | now apply Hfit].
Qed.

Lemma split_nl_cons (s : string) : exists l ls, split_nl s = l :: ls.
Proof.
  destruct s as [|c s]; simpl; [eauto |].
  destruct (Ascii.eqb c newline); [eauto |].
  destruct (split_nl s); eauto.
Qed.

(** The lines of two strings joined by a newline are the lines of the
    one, then the lines of the other. *)
Lemma split_nl_app (a b : string) :
  split_nl (a +:+ String newline "" +:+ b) = split_nl a ++ split_nl b.
Proof.
  induction a as [|c a IH]; [reflexivity |].
  change (String c a +:+ String newline "" +:+ b)
    with (String c (a +:+ String newline "" +:+ b)).
  cbn [split_nl]. rewrite IH.
  destruct (Ascii.eqb c newline); [reflexivity |].
  destruct (split_nl_cons a) as (l & ls & ->). reflexivity.
Qed.

(** No line of a string is longer than the string. *)
Lemma split_nl_len (s : string) :
  Forall (fun line => len line <= len s) (split_nl s).
Proof.
  induction s as [|c s IH]; [constructor; [reflexivity | constructor] |].
  cbn [split_nl].
  assert (Hmono : Forall (fun line => len line <= len (String c s))
                    (split_nl s)).
  { eapply Forall_impl; [exact IH |]. intros l Hl. unfold len in *.
    cbn [String.length]. lia. }
  destruct (Ascii.eqb c newline).
  - constructor; [unfold len; simpl; lia | exact Hmono].
  - destruct (split_nl s) as [|l ls].
    + constructor; [| constructor]. unfold len. cbn [String.length]. lia.
    + apply Forall_cons in IH as [Hl _]. apply Forall_cons in Hmono as [_ Hls].
      apply Forall_cons. split; [| exact Hls].
      unfold len in *. cbn [String.length]. lia.
Qed.

Lemma join_newline_lines (width : Z) (lines : list string) :
  0 <= width ->
  Forall (fun line => len line <= width) lines ->
  Forall (fun line => len line <= width)
    (split_nl (join (String newline "") lines)).
Proof.
  intros Hw Hall.
  induction Hall as [|p lines Hp Hall IH]; [repeat constructor; exact Hw |].
  assert (Hpl : Forall (fun line => len line <= width) (split_nl p)).
  { eapply Forall_impl; [apply split_nl_len |]. simpl. intros l Hl. lia. }
  destruct lines as [|q lines]; [exact Hpl |].
  change (join (String newline "") (p :: q :: lines))
    with (p +:+ String newline "" +:+ join (String newline "") (q :: lines)).
  rewrite split_nl_app. apply Forall_app. split; [exact Hpl | exact IH].
Qed.

Section WordWrapFacts.
Variable wordsep_split : string -> list string.

(** C4, as the code has it: when the text is at least [max_length] long
    and [max_length] is at least 1, [word_wrap] returns a string no line
    of which is longer than [max_length]; when [max_length] is 0 or less
    it raises the [ValueError] of [textwrap]; and a text shorter than
    [max_length] is returned as it is. *)
Theorem word_wrap_lines_fit (txt : string) (max_length : Z) :
  (max_length <= len txt -> 1 <= max_length ->
   exists wrapped,
     word_wrap wordsep_split txt max_length = Ok wrapped
     /\ Forall (fun line => len line <= max_length) (split_nl wrapped))
  /\ (max_length <= len txt -> max_length <= 0 ->
      word_wrap wordsep_split txt max_length
      = Raise (ValueError "invalid width %r (must be > 0)" max_length))
  /\ (len txt < max_length ->
      word_wrap wordsep_split txt max_length = Ok txt).
Proof.
  unfold word_wrap, wrap, _wrap_chunks. split; [| split].
  - intros Hlen Hw.
    destruct (Z.leb_spec max_length (len txt)) as [_|]; [| lia].
    destruct (Z.leb_spec max_length 0) as [|_]; [lia |].
    destruct (wrap_loop_spec max_length
                (chunks_weight (_split_chunks wordsep_split txt))
                (_split_chunks wordsep_split txt) [] Hw)
      as (lines & Heq & Hfit); [lia | constructor |].
    rewrite Heq. simpl. eexists. split; [reflexivity |].
    apply join_newline_lines; [lia | exact Hfit].
  - intros Hlen Hw.
    destruct (Z.leb_spec max_length (len txt)) as [_|]; [| lia].
    destruct (Z.leb_spec max_length 0) as [_|]; [| lia]. reflexivity.
  - intros Hlen.
    destruct (Z.leb_spec max_length (len txt)) as [|_]; [lia |]. reflexivity.
Qed.

End WordWrapFacts.

Example word_wrap_breaks_at_spaces :
  word_wrap wordsep_simple_split "the quick brown fox" 9
  = Ok ("the quick" +:+ String newline "brown fox").
Proof. reflexivity. Qed.

Example word_wrap_breaks_long_words :
  word_wrap wordsep_simple_split "ab-cdefghij" 4
  = Ok ("ab-" +:+ String newline ("cdef" +:+ String newline "ghij")).
Proof. reflexivity. Qed.

Example word_wrap_keeps_short_text :
  word_wrap wordsep_simple_split "short" 9 = Ok "short".
Proof. reflexivity. Qed.

Lemma word_wrap_lines_fit_witness :
  exists wrapped,
    word_wrap wordsep_simple_split "the quick brown fox" 9 = Ok wrapped
    /\ Forall (fun line => len line <= 9) (split_nl wrapped).
Proof.
  apply (word_wrap_lines_fit wordsep_simple_split "the quick brown fox" 9);
    vm_compute; discriminate.
Defined.

(** C4, as the claim has it, fails: at width 0 a text is at least that
    long, and [word_wrap] returns no string at all. *)
Lemma word_wrap_width_zero_raises :
  0 <= len "hello world"
  /\ ~ (exists wrapped,
          word_wrap wordsep_simple_split "hello world" 0 = Ok wrapped
          /\ Forall (fun line => len line <= 0) (split_nl wrapped)).
Proof.
  split; [vm_compute; discriminate |].
  intros (wrapped & Heq & _). vm_compute in Heq. discriminate Heq.
Qed.

(** C8 at a table of a header row and one data row, with a rendering
    that has a blank line in it. *)
Lemma porcelain_has_no_blank_lines_witness :
  exists output lines table_lines,
    __rich_console__ unit unit
      (fun _ _ _ =>
         [mkSegment " Name " (Some "bold") None; Segment_line;
          mkSegment "      " None None; Segment_line;
          mkSegment " a    " None None; Segment_line])
      (mkTerminalTable None [["Name"]; ["a"]] "porcelain"
         (mkTable None PORCELAIN_BOX false [mkColumn "Name" ["a"]]
            [mkRow None false]))
      tt tt = Ok output
    /\ split_lines output = Ok lines
    /\ Forall (fun line => Exists (fun seg => strip (text seg) <> "") line)
         lines
    /\ split_lines
         [mkSegment " Name " (Some "bold") None; Segment_line;
          mkSegment "      " None None; Segment_line;
          mkSegment " a    " None None; Segment_line]
       = Ok table_lines
    /\ lines = filter (fun line => has_visible_text line = true) table_lines.
Proof.
  apply (porcelain_has_no_blank_lines unit unit
           (fun _ _ _ =>
              [mkSegment " Name " (Some "bold") None; Segment_line;
               mkSegment "      " None None; Segment_line;
               mkSegment " a    " None None; Segment_line])
           (mkTerminalTable None [["Name"]; ["a"]] "porcelain"
              (mkTable None PORCELAIN_BOX false [mkColumn "Name" ["a"]]
                 [mkRow None false]))
           tt tt).
  reflexivity.
Defined.

(** * Further properties *)

(** ** Programs of scopes and prints *)

Lemma override_set_ne (tid tid' : nat) (v : option TextIO) (w : World) :
  tid' <> tid -> override tid' (set_local_output tid v w).1 = override tid' w.
Proof. intros Hne. unfold override. now rewrite override_set_other. Qed.

Section ProgramFacts.
Variable write_error : list PrintCall -> PrintCall -> option exn.

Lemma run_override (p : prog) (tid : nat) (w : World) :
  override tid (run write_error p w).1 = override tid w.
Proof.
  revert w. induction p as [| p IHp q IHq | tid' f body IH | tid' txt args
                           | | e]; intros w; simpl; try reflexivity.
  - unfold mbind, M_bind. specialize (IHp w).
    destruct (run write_error p w) as [w1 [[]| e |]]; simpl in *;
      try exact IHp.
    now rewrite IHq.
  - rewrite capture_console_unfold. cbn [fst].
    destruct (decide (tid = tid')) as [-> | Hne].
    + apply override_set_same.
    + rewrite override_set_ne by exact Hne. rewrite IH.
      now apply override_set_ne.
  - now rewrite console_unfold.
Qed.

(** X1: whatever a program of scopes, prints and raises does, and however
    it ends, [get_console_output] returns for every thread after it what
    it returned before it: scopes are left as they were entered. *)
Theorem run_leaves_overrides (p : prog) (tid : nat) (w : World) :
  (get_console_output tid (run write_error p w).1).2
  = (get_console_output tid w).2.
Proof. rewrite !get_console_output_spec. simpl. f_equal. apply run_override. Qed.

Lemma run_no_color (p : prog) (w : World) :
  rich_console_no_color w = true ->
  rich_console_no_color (run write_error p w).1 = true
  /\ exists new,
       printed (run write_error p w).1 = printed w ++ new
       /\ Forall (fun call => call_no_color call = true) new.
Proof.
  revert w. induction p as [| p IHp q IHq | tid' f body IH | tid' txt args
                           | | e]; intros w Hw; simpl.
  - split; [exact Hw |]. exists []. now rewrite app_nil_r.
  - unfold mbind, M_bind. destruct (IHp w Hw) as (Hp & new & Hnew & Hall).
    destruct (run write_error p w) as [w1 [[]| e |]]; simpl in *; eauto.
    destruct (IHq w1 Hp) as (Hq & new' & Hnew' & Hall').
    split; [exact Hq |]. exists (new ++ new').
    rewrite Hnew', Hnew, <- app_assoc. split; [reflexivity |].
    now apply Forall_app.
  - rewrite capture_console_unfold. cbn [fst].
    exact (IH (set_local_output tid' (Some f) w).1 Hw).
  - rewrite console_unfold. simpl. split; [exact Hw |].
    eexists. split; [reflexivity |]. now repeat constructor.
  - split; [reflexivity |]. exists []. now rewrite app_nil_r.
  - split; [exact Hw |]. exists []. now rewrite app_nil_r.
Qed.

(** X3: once [disable_colors] has run, colours stay off: after any
    program that follows, [no_color] is still set and every print the
    program made was made with it set.  [disable_colors] itself touches no
    override and prints nothing. *)
Theorem disable_colors_is_kept (p : prog) (w : World) :
  let w1 := (disable_colors w).1 in
  let w2 := (run write_error p w1).1 in
  local_context w1 = local_context w
  /\ printed w1 = printed w
  /\ rich_console_no_color w2 = true
  /\ exists new,
       printed w2 = printed w ++ new
       /\ Forall (fun call => call_no_color call = true) new.
Proof.
  intros w1 w2. split; [reflexivity | split; [reflexivity |]].
  exact (run_no_color p w1 eq_refl).
Qed.

End ProgramFacts.

Lemma nested_innermost {A} (tid : nat) (fs : list TextIO) (f : TextIO)
    (body : M A) (w : World) :
  last fs = Some f ->
  exists w_in,
    (nested tid fs body w).2 = (body w_in).2 /\ override tid w_in = Some f.
Proof.
  revert w. induction fs as [|f0 fs IH]; intros w Hlast; [discriminate |].
  cbn [nested]. rewrite capture_console_unfold. cbn [snd].
  destruct fs as [|f1 fs].
  - injection Hlast as ->. eexists. split; [reflexivity |].
    apply override_set_same.
  - apply IH. exact Hlast.
Qed.

(** X4: with scopes inside scopes, the body runs with the stream of the
    innermost scope as override, and its outcome, a raise included, comes
    out of all of them unchanged. *)
Theorem nested_scopes_are_a_stack {A} (tid : nat) (fs : list TextIO)
    (f : TextIO) (body : M A) (w : World) :
  last fs = Some f ->
  exists w_in,
    (nested tid fs body w).2 = (body w_in).2
    /\ (get_console_output tid w_in).2 = Ok (Some f).
Proof.
  intros Hlast. destruct (nested_innermost tid fs f body w Hlast)
    as (w_in & Hout & Hov).
  exists w_in. split; [exact Hout |].
  rewrite get_console_output_spec. simpl. now rewrite Hov.
Qed.

Lemma nested_scopes_are_a_stack_witness :
  exists w_in,
    (nested 1 [FileObj 1; FileObj 2; FileObj 3]
       (raise (A := unit) (IOError 9)) initial_world).2
    = (raise (A := unit) (IOError 9) w_in).2
    /\ (get_console_output 1 w_in).2 = Ok (Some (FileObj 3)).
Proof.
  apply (nested_scopes_are_a_stack 1 [FileObj 1; FileObj 2; FileObj 3]
           (FileObj 3)).
  reflexivity.
Defined.

(** ** The table behind a [TerminalTable] *)

Lemma add_cells_meta (cells : list (option string)) (i : nat) (t : Table) :
  Table_title (add_cells i cells t) = Table_title t
  /\ box (add_cells i cells t) = box t
  /\ show_edge (add_cells i cells t) = show_edge t.
Proof.
  revert i t. induction cells as [|x cells IH]; intros i t; simpl;
    [repeat split |].
  destruct (IH (S i)
              (set_columns
                 (if (i =? length (columns t))%nat
                  then set_columns t
                         (columns t
                          ++ [mkColumn "" (replicate (length (rows t)) "")])
                  else t)
                 (alter (add_cell (default "" x)) i
                    (columns
                       (if (i =? length (columns t))%nat
                        then set_columns t
                               (columns t
                                ++ [mkColumn ""
                                      (replicate (length (rows t)) "")])
                        else t))))) as (Ht & Hb & He).
  rewrite Ht, Hb, He. simpl.
  destruct (i =? length (columns t))%nat; repeat split.
Qed.

Lemma add_rows_meta (rs : list (list string)) (t : Table) :
  Table_title (fold_left add_row rs t) = Table_title t
  /\ box (fold_left add_row rs t) = box t
  /\ show_edge (fold_left add_row rs t) = show_edge t.
Proof.
  revert t. induction rs as [|r rs IH]; intros t; simpl; [repeat split |].
  destruct (IH (add_row t r)) as (Ht & Hb & He). rewrite Ht, Hb, He.
  unfold add_row. simpl. apply add_cells_meta.
Qed.

Lemma add_columns_meta (hs : list string) (t : Table) :
  Table_title (fold_left add_column hs t) = Table_title t
  /\ box (fold_left add_column hs t) = box t
  /\ show_edge (fold_left add_column hs t) = show_edge t.
Proof.
  revert t. induction hs as [|h hs IH]; intros t; simpl; [repeat split |].
  destruct (IH (add_column t h)) as (Ht & Hb & He). now rewrite Ht, Hb, He.
Qed.

(** X6: the construction returns a table exactly when the table type is a
    key of [TABLE_TYPES] and [table_data] is not empty; the object then
    holds the title, type and data it was given, and its table has that
    title and the box and edge setting of the type. *)
Theorem TerminalTable_init_succeeds_iff (table_type : string)
    (data : list (list string)) (ttl : option string)
    (wrap_columns drop_columns : option (list Z)) :
  ((exists T,
      TerminalTable_init table_type data ttl wrap_columns drop_columns = Ok T)
   <-> is_Some (TABLE_TYPES !! table_type) /\ data <> [])
  /\ forall T,
       TerminalTable_init table_type data ttl wrap_columns drop_columns = Ok T
       -> title T = ttl /\ type T = table_type /\ table_data T = data
          /\ Table_title (table T) = ttl
          /\ exists options,
               TABLE_TYPES !! table_type = Some options
               /\ box (table T) = opt_box options
               /\ show_edge (table T)
                  = default true (opt_show_edge options).
Proof.
  unfold TerminalTable_init, _init_table, dict_getitem.
  destruct (TABLE_TYPES !! table_type) as [options|]; simpl.
  - destruct data as [|head_row data_rows]; simpl.
    + split; [| discriminate].
      split; [intros [T HT]; discriminate | intros [_ Hne]; congruence].
    + split; [split; [intros _; split; [eauto | discriminate] | eauto] |].
      intros T HT. injection HT as <-. simpl.
      destruct (add_rows_meta data_rows
                  (fold_left add_column head_row (Table_new ttl options)))
        as (Ht & Hb & He).
      destruct (add_columns_meta head_row (Table_new ttl options))
        as (Ht' & Hb' & He').
      rewrite Ht, Hb, He, Ht', Hb', He'. simpl. repeat split. eauto.
  - split; [| discriminate].
    split; [intros [T HT]; discriminate | intros [[o Ho] _]; discriminate].
Qed.

Lemma TerminalTable_init_succeeds_iff_witness :
  title (mkTerminalTable (Some "Series") [["Name"]; ["a"]] "github"
           (fold_left add_row [["a"]]
              (fold_left add_column ["Name"]
                 (Table_new (Some "Series") (mkOptions GITHUB_BOX None)))))
  = Some "Series"
  /\ type (mkTerminalTable (Some "Series") [["Name"]; ["a"]] "github"
             (fold_left add_row [["a"]]
                (fold_left add_column ["Name"]
                   (Table_new (Some "Series") (mkOptions GITHUB_BOX None)))))
     = "github".
Proof.
  destruct (proj2 (TerminalTable_init_succeeds_iff "github"
                     [["Name"]; ["a"]] (Some "Series") None None)
              _ eq_refl) as (Ht & Hty & _).
  split; [exact Ht | exact Hty].
Defined.

Lemma header_extend_columns (n : nat) (cells : list (option string))
    (cs : list Column) :
  header <$> extend_columns n cells cs
  = (header <$> cs) ++ replicate (length cells - length cs) "".
Proof.
  revert cs. induction cells as [|x cells IH]; intros cs; simpl.
  - now rewrite app_nil_r.
  - destruct cs as [|c cs]; simpl; rewrite IH; simpl; [| reflexivity].
    now rewrite Nat.sub_0_r.
Qed.

Lemma add_row_ncols (t : Table) (r : list string) :
  length (columns (add_row t r))
  = Nat.max (length r) (length (columns t)).
Proof.
  rewrite add_row_columns, length_extend_columns, length_app, length_fmap,
    length_replicate. lia.
Qed.

Lemma add_rows_ncols (rs : list (list string)) (t : Table) :
  length (columns (fold_left add_row rs t))
  = Nat.max (length (columns t)) (max_list (length <$> rs)).
Proof.
  revert t. induction rs as [|r rs IH]; intros t.
  - change (length (columns t) = Nat.max (length (columns t)) 0). lia.
  - change (length (columns (fold_left add_row rs (add_row t r)))
            = Nat.max (length (columns t))
                (Nat.max (length r) (max_list (length <$> rs)))).
    rewrite IH, add_row_ncols. lia.
Qed.

Lemma add_rows_rectangular (rs : list (list string)) (t : Table) :
  rectangular t -> rectangular (fold_left add_row rs t).
Proof.
  revert t. induction rs as [|r rs IH]; intros t Hrect; [exact Hrect |].
  simpl. apply IH. now apply add_row_rectangular.
Qed.

Lemma add_rows_header_padding (rs : list (list string)) (t : Table) :
  exists k,
    header <$> columns (fold_left add_row rs t)
    = (header <$> columns t) ++ replicate k "".
Proof.
  revert t. induction rs as [|r rs IH]; intros t; simpl.
  - exists 0%nat. simpl. now rewrite app_nil_r.
  - destruct (IH (add_row t r)) as [k Hk]. rewrite Hk.
    rewrite add_row_columns, header_extend_columns, <- app_assoc,
      <- replicate_add.
    eauto.
Qed.

Lemma lookup_padded (l : list string) (k j : nat) (x : string) :
  (l ++ replicate k "") !! j = Some x -> x = default "" (l !! j).
Proof.
  intros Hx. destruct (l !! j) as [y|] eqn:Hy.
  - rewrite (lookup_app_l_Some _ _ _ _ Hy) in Hx. now injection Hx as <-.
  - apply lookup_ge_None in Hy. rewrite lookup_app_r in Hx by exact Hy.
    apply lookup_replicate in Hx as [-> _]. reflexivity.
Qed.

Lemma cell_at_no_column (t : Table) (i j : nat) :
  (length (columns t) <= j)%nat -> cell_at t i j = None.
Proof.
  intros Hj. unfold cell_at. now rewrite (lookup_ge_None_2 _ _ Hj).
Qed.

Lemma add_row_cell_old (t : Table) (r : list string) (i j : nat) :
  rectangular t -> (i < length (rows t))%nat ->
  (j < length (columns (add_row t r)))%nat ->
  cell_at (add_row t r) i j = Some (default "" (cell_at t i j)).
Proof.
  intros Hrect Hi Hj. rewrite add_row_ncols in Hj. unfold cell_at.
  destruct (add_row_cells_lookup t r j) as (c' & Hc' & Hcells); [lia |].
  rewrite Hc'. simpl. rewrite Hcells.
  destruct (columns t !! j) as [c|] eqn:Hc; simpl.
  - pose proof (proj1 (Forall_lookup _ _) Hrect j c Hc) as Hlen.
    simpl in Hlen.
    destruct (lookup_lt_is_Some_2 (_cells c) i) as [y Hy]; [lia |].
    rewrite Hy. now apply lookup_app_l_Some.
  - apply lookup_app_l_Some. now apply lookup_replicate_2.
Qed.

Lemma add_row_cell_new (t : Table) (r : list string) (j : nat) :
  rectangular t -> (j < length (columns (add_row t r)))%nat ->
  cell_at (add_row t r) (length (rows t)) j = Some (default "" (r !! j)).
Proof.
  intros Hrect Hj. rewrite add_row_ncols in Hj. unfold cell_at.
  destruct (add_row_cells_lookup t r j) as (c' & Hc' & Hcells); [lia |].
  rewrite Hc'. simpl. rewrite Hcells.
  destruct (columns t !! j) as [c|] eqn:Hc.
  - apply list_lookup_middle.
    symmetry. exact (proj1 (Forall_lookup _ _) Hrect j c Hc).
  - apply list_lookup_middle. now rewrite length_replicate.
Qed.

Lemma add_rows_cell_old (rs : list (list string)) (t : Table) (i j : nat) :
  rectangular t -> (i < length (rows t))%nat ->
  (j < length (columns (fold_left add_row rs t)))%nat ->
  cell_at (fold_left add_row rs t) i j = Some (default "" (cell_at t i j)).
Proof.
  revert t. induction rs as [|r rs IH]; intros t Hrect Hi Hj; simpl in *.
  - unfold cell_at in *.
    destruct (lookup_lt_is_Some_2 (columns t) j Hj) as [c Hc].
    rewrite Hc. simpl.
    pose proof (proj1 (Forall_lookup _ _) Hrect j c Hc) as Hlen.
    simpl in Hlen.
    destruct (lookup_lt_is_Some_2 (_cells c) i) as [y Hy]; [lia |].
    now rewrite Hy.
  - rewrite IH; [| now apply add_row_rectangular
                 | rewrite add_row_rows, length_app; simpl; lia
                 | exact Hj].
    f_equal.
    destruct (Nat.lt_ge_cases j (length (columns (add_row t r))))
      as [Hlt | Hge].
    + now rewrite add_row_cell_old.
    + rewrite (cell_at_no_column _ i j Hge).
      rewrite add_row_ncols in Hge.
      rewrite cell_at_no_column by lia. reflexivity.
Qed.

Lemma add_rows_cell (rs : list (list string)) (t : Table) (i j : nat)
    (r : list string) :
  rectangular t -> rs !! i = Some r ->
  (j < length (columns (fold_left add_row rs t)))%nat ->
  cell_at (fold_left add_row rs t) (length (rows t) + i) j
  = Some (default "" (r !! j)).
Proof.
  revert t i. induction rs as [|r0 rs IH]; intros t i Hrect Hi Hj;
    [discriminate |].
  destruct i as [|i]; simpl in Hi, Hj |- *.
  - injection Hi as ->. rewrite Nat.add_0_r.
    rewrite add_rows_cell_old;
      [| now apply add_row_rectangular
       | rewrite add_row_rows, length_app; simpl; lia
       | exact Hj].
    f_equal.
    destruct (Nat.lt_ge_cases j (length (columns (add_row t r))))
      as [Hlt | Hge].
    + now rewrite add_row_cell_new.
    + rewrite (cell_at_no_column _ _ j Hge).
      rewrite add_row_ncols in Hge.
      rewrite (lookup_ge_None_2 r j) by lia. reflexivity.
  - specialize (IH (add_row t r0) i (add_row_rectangular t r0 Hrect) Hi Hj).
    rewrite add_row_rows, length_app in IH. simpl in IH.
    now replace (length (rows t) + S i)%nat
      with (length (rows t) + 1 + i)%nat by lia.
Qed.

(** X7: inner lists of different lengths do not make the construction
    fail: the table gets as many columns as the longest inner list has
    strings, one row per inner list after the first, and a cell in every
    column for every row. *)
Theorem table_is_rectangular (table_type : string) (options : TableOptions)
    (ttl : option string) (wrap_columns drop_columns : option (list Z))
    (head_row : list string) (data_rows : list (list string)) :
  TABLE_TYPES !! table_type = Some options ->
  exists T,
    TerminalTable_init table_type (head_row :: data_rows) ttl
      wrap_columns drop_columns = Ok T
    /\ length (columns (table T))
       = max_list (length <$> head_row :: data_rows)
    /\ Forall (fun c => length (_cells c) = length data_rows)
         (columns (table T)).
Proof.
  intros Hopt. unfold TerminalTable_init, _init_table, dict_getitem.
  rewrite Hopt. simpl. eexists. split; [reflexivity |]. simpl.
  set (t0 := Table_new ttl options).
  destruct (add_columns_spec head_row t0) as [Hc Hr]. simpl in Hc.
  assert (Hrect : rectangular (fold_left add_column head_row t0))
    by (apply add_columns_rectangular; [reflexivity | constructor]).
  split.
  - rewrite add_rows_ncols. rewrite <- (length_fmap header), Hc.
    reflexivity.
  - pose proof (add_rows_rectangular data_rows _ Hrect) as Hfinal.
    unfold rectangular in Hfinal. rewrite add_rows_rows, Hr in Hfinal.
    exact Hfinal.
Qed.

Lemma table_is_rectangular_witness :
  exists T,
    TerminalTable_init "single" [["Name"]; ["a"; "b"; "c"]; []] None
      None None = Ok T
    /\ length (columns (table T))
       = max_list (length <$> [["Name"]; ["a"; "b"; "c"]; []])
    /\ Forall (fun c => length (_cells c) = 2%nat) (columns (table T)).
Proof.
  apply (table_is_rectangular "single" (mkOptions SQUARE None) None None
           None ["Name"] [["a"; "b"; "c"]; []]).
  reflexivity.
Defined.

(** X8: what the table holds: column [j] has the [j]-th string of the
    first inner list as header and the [j]-th string of inner list [i+1]
    as cell of row [i]; where an inner list is too short for a column, the
    header or the cell is the empty string. *)
Theorem table_contents (table_type : string) (options : TableOptions)
    (ttl : option string) (wrap_columns drop_columns : option (list Z))
    (head_row : list string) (data_rows : list (list string)) :
  TABLE_TYPES !! table_type = Some options ->
  exists T,
    TerminalTable_init table_type (head_row :: data_rows) ttl
      wrap_columns drop_columns = Ok T
    /\ (forall (j : nat) (c : Column),
          columns (table T) !! j = Some c ->
          header c = default "" (head_row !! j))
    /\ forall (i j : nat) (r : list string),
         data_rows !! i = Some r ->
         (j < length (columns (table T)))%nat ->
         cell_at (table T) i j = Some (default "" (r !! j)).
Proof.
  intros Hopt. unfold TerminalTable_init, _init_table, dict_getitem.
  rewrite Hopt. simpl. eexists. split; [reflexivity |]. simpl.
  set (t0 := Table_new ttl options).
  destruct (add_columns_spec head_row t0) as [Hc Hr]. simpl in Hc.
  assert (Hrect : rectangular (fold_left add_column head_row t0))
    by (apply add_columns_rectangular; [reflexivity | constructor]).
  split.
  - intros j c Hj.
    destruct (add_rows_header_padding data_rows
                (fold_left add_column head_row t0)) as [k Hk].
    rewrite Hc in Hk. apply (lookup_padded head_row k).
    rewrite <- Hk, list_lookup_fmap, Hj. reflexivity.
  - intros i j r Hi Hj.
    pose proof (add_rows_cell data_rows _ i j r Hrect Hi Hj) as Hcell.
    rewrite Hr in Hcell. exact Hcell.
Qed.

Lemma table_contents_witness :
  exists T,
    TerminalTable_init "single" [["Name"]; ["a"; "b"; "c"]; []] None
      None None = Ok T
    /\ (forall (j : nat) (c : Column),
          columns (table T) !! j = Some c ->
          header c = default "" (["Name"] !! j))
    /\ forall (i j : nat) (r : list string),
         [["a"; "b"; "c"]; []] !! i = Some r ->
         (j < length (columns (table T)))%nat ->
         cell_at (table T) i j = Some (default "" (r !! j)).
Proof.
  apply (table_contents "single" (mkOptions SQUARE None) None None None
           ["Name"] [["a"; "b"; "c"]; []]).
  reflexivity.
Defined.

(** ** Rendering with blank lines stripped *)

Lemma filter_visible_idem (lines : list (list Segment)) :
  filter (fun line => has_visible_text line = true)
    (filter (fun line => has_visible_text line = true) lines)
  = filter (fun line => has_visible_text line = true) lines.
Proof.
  induction lines as [|line lines IH]; [reflexivity |].
  rewrite filter_cons. case_decide as Hvis; [| exact IH].
  rewrite filter_cons. rewrite decide_True by exact Hvis. now rewrite IH.
Qed.

Lemma filter_whole (lines : list (list Segment)) :
  Forall (Forall whole) lines ->
  Forall (Forall whole)
    (filter (fun line => has_visible_text line = true) lines).
Proof.
  intros Hall. apply Forall_forall. intros line Hin.
  apply list_elem_of_filter in Hin as [_ Hin].
  revert line Hin. now apply Forall_forall.
Qed.

Section StripFacts.
Variables Console ConsoleOptions : Type.
Variable Table_rich_console :
  Table -> Console -> ConsoleOptions -> list Segment.

(** What the rendering of a table of one of the two custom types is. *)
Lemma custom_type_rendering (self : TerminalTable) (console : Console)
    (options : ConsoleOptions) :
  type self ∈ ["porcelain"; "github"] ->
  exists table_lines,
    split_lines (Table_rich_console (table self) console options)
    = Ok table_lines
    /\ Forall (Forall whole) table_lines
    /\ __rich_console__ Console ConsoleOptions Table_rich_console self
         console options
       = Ok (concat ((fun line => line ++ [Segment_line])
                       <$> filter (fun line => has_visible_text line = true)
                             table_lines)).
Proof.
  intros Htype. unfold __rich_console__.
  rewrite (bool_decide_eq_true_2 _ Htype). simpl.
  destruct (split_lines_whole
              (Table_rich_console (table self) console options))
    as (table_lines & Hsplit & Hwhole).
  rewrite Hsplit. simpl. eauto.
Qed.

End StripFacts.

(** ** What wrapping keeps of a text *)

Lemma append_cons (c : ascii) (a b : string) :
  String c a +:+ b = String c (a +:+ b).
Proof. reflexivity. Qed.

Lemma append_nil_r (s : string) : s +:+ "" = s.
Proof.
  induction s as [|c s IH]; [reflexivity | now rewrite append_cons, IH].
Qed.

Lemma append_assoc (a b c : string) : (a +:+ b) +:+ c = a +:+ (b +:+ c).
Proof.
  induction a as [|x a IH]; [reflexivity | now rewrite !append_cons, IH].
Qed.

Lemma visible_app (a b : string) :
  visible_chars (a +:+ b) = visible_chars a +:+ visible_chars b.
Proof.
  induction a as [|c a IH]; [reflexivity |].
  change (String c a +:+ b) with (String c (a +:+ b)). cbn [visible_chars].
  rewrite IH. now destruct (py_isspace c).
Qed.

Lemma visible_lstrip (s : string) :
  visible_chars (lstrip s) = visible_chars s.
Proof.
  induction s as [|c s IH]; [reflexivity |]. cbn [lstrip].
  destruct (py_isspace c) eqn:Hc; [| reflexivity].
  cbn [visible_chars]. now rewrite Hc.
Qed.

Lemma visible_rstrip (s : string) :
  visible_chars (rstrip s) = visible_chars s.
Proof.
  induction s as [|c s IH]; [reflexivity |]. cbn [rstrip].
  destruct (rstrip s) as [|d r].
  - cbn [visible_chars] in *. rewrite <- IH.
    destruct (py_isspace c) eqn:Hc; [reflexivity |].
    cbn [visible_chars]. now rewrite Hc.
  - cbn [visible_chars] in *. now rewrite IH.
Qed.

Lemma visible_blank (s : string) :
  is_blank s = true -> visible_chars s = "".
Proof.
  unfold is_blank, strip. intros Hb.
  rewrite <- visible_rstrip, <- visible_lstrip.
  destruct (lstrip (rstrip s)); [reflexivity | discriminate].
Qed.

Lemma str_take_drop (n : nat) (s : string) :
  str_take n s +:+ str_drop n s = s.
Proof.
  revert s. induction n as [|n IH]; intros [|c s]; try reflexivity.
  cbn [str_take str_drop]. now rewrite append_cons, IH.
Qed.

Lemma slice_to_from (e : Z) (s : string) :
  slice_to e s +:+ slice_from e s = s.
Proof.
  unfold slice_to, slice_from. destruct (e <? 0); apply str_take_drop.
Qed.

Lemma in_whitespace_isspace (c : ascii) :
  in_whitespace c = true -> py_isspace c = true.
Proof.
  unfold in_whitespace, py_isspace. cbv zeta.
  set (n := nat_of_ascii c). intros H.
  apply orb_true_iff in H as [H | H].
  - rewrite H. reflexivity.
  - apply Nat.eqb_eq in H. rewrite H. reflexivity.
Qed.

Lemma visible_spaces (n : nat) : visible_chars (spaces n) = "".
Proof. induction n as [|n IH]; [reflexivity | exact IH]. Qed.

Lemma visible_translate (s : string) :
  visible_chars (translate_whitespace s) = visible_chars s.
Proof.
  induction s as [|c s IH]; [reflexivity |].
  cbn [translate_whitespace visible_chars]. rewrite IH.
  destruct (in_whitespace c) eqn:Hc; [| reflexivity].
  now rewrite (in_whitespace_isspace c Hc).
Qed.

Lemma visible_expandtabs (tabsize col : nat) (s : string) :
  visible_chars (expandtabs_from tabsize col s) = visible_chars s.
Proof.
  revert col. induction s as [|c s IH]; intros col; [reflexivity |].
  cbn [expandtabs_from].
  destruct (Ascii.eqb_spec c "009"%char) as [-> | _].
  - change (visible_chars (String "009" s)) with (visible_chars s).
    destruct (0 <? tabsize)%nat; [| apply IH].
    now rewrite visible_app, visible_spaces, IH.
  - destruct (Ascii.eqb c newline || Ascii.eqb c "013"%char);
      cbn [visible_chars]; now rewrite IH.
Qed.

Lemma visible_munge (s : string) :
  visible_chars (_munge_whitespace s) = visible_chars s.
Proof.
  unfold _munge_whitespace, expandtabs.
  now rewrite visible_translate, visible_expandtabs.
Qed.

Lemma join_empty_cons (c : string) (l : list string) :
  join "" (c :: l) = c +:+ join "" l.
Proof. destruct l; [simpl; now rewrite append_nil_r | reflexivity]. Qed.

Lemma join_empty_app (a b : list string) :
  join "" (a ++ b) = join "" a +:+ join "" b.
Proof.
  induction a as [|c a IH]; [reflexivity |].
  change ((c :: a) ++ b) with (c :: (a ++ b)).
  now rewrite !join_empty_cons, IH, append_assoc.
Qed.

Lemma join_empty_filter (l : list string) :
  join "" (filter (fun c => truthy c = true) l) = join "" l.
Proof.
  induction l as [|c l IH]; [reflexivity |].
  rewrite filter_cons, join_empty_cons.
  destruct c as [|a c]; simpl decide.
  - rewrite decide_False by discriminate. exact IH.
  - rewrite decide_True by reflexivity. now rewrite join_empty_cons, IH.
Qed.

Lemma visible_join_newline (lines : list string) :
  visible_chars (join (String newline "") lines)
  = visible_chars (join "" lines).
Proof.
  induction lines as [|p [|q lines] IH]; [reflexivity | reflexivity |].
  change (join (String newline "") (p :: q :: lines))
    with (p +:+ String newline "" +:+ join (String newline "") (q :: lines)).
  rewrite (join_empty_cons p), !visible_app, IH. reflexivity.
Qed.

Lemma removelast_last (l : list string) (c : string) :
  last l = Some c -> l = removelast l ++ [c].
Proof.
  induction l as [|x [|y l] IH]; intros Hlast; [discriminate | |].
  - injection Hlast as ->. reflexivity.
  - change (removelast (x :: y :: l)) with (x :: removelast (y :: l)).
    simpl app. f_equal. apply IH. exact Hlast.
Qed.

Lemma visible_drop_trailing_blank (l : list string) :
  visible_chars (join "" (drop_trailing_blank l)) = visible_chars (join "" l).
Proof.
  unfold drop_trailing_blank. destruct (last l) as [c|] eqn:Hlast;
    [| reflexivity].
  destruct (is_blank c) eqn:Hb; [| reflexivity].
  rewrite (removelast_last l c Hlast) at 2.
  rewrite join_empty_app, visible_app, join_empty_cons, visible_app,
    (visible_blank c Hb).
  simpl. now rewrite append_nil_r.
Qed.

Lemma visible_drop_leading_blank (chunks lines : list string) :
  visible_chars (join "" (drop_leading_blank chunks lines))
  = visible_chars (join "" chunks).
Proof.
  unfold drop_leading_blank. destruct chunks as [|c rest]; [reflexivity |].
  destruct (is_blank c) eqn:Hb; simpl andb; [| reflexivity].
  destruct (negb (bool_decide (lines = []))); [| reflexivity].
  now rewrite join_empty_cons, visible_app, (visible_blank c Hb).
Qed.

Lemma handle_long_word_shape (width cur_len : Z) (c : string)
    (rest cur_line : list string) :
  exists end_,
    _handle_long_word (c :: rest) cur_line cur_len width
    = (slice_from end_ c :: rest, cur_line ++ [slice_to end_ c]).
Proof. unfold _handle_long_word. eauto. Qed.

Lemma break_long_word_join (width cur_len : Z)
    (chunks cur_line : list string) :
  join "" (break_long_word width chunks cur_line cur_len).2
    +:+ join "" (break_long_word width chunks cur_line cur_len).1
  = join "" cur_line +:+ join "" chunks.
Proof.
  unfold break_long_word. destruct chunks as [|c rest]; [reflexivity |].
  destruct (width <? len c); [| reflexivity].
  destruct (handle_long_word_shape width cur_len c rest cur_line)
    as [end_ Heq].
  rewrite Heq. cbn [fst snd].
  rewrite join_empty_app, !join_empty_cons, append_nil_r, append_assoc.
  rewrite <- (append_assoc (slice_to end_ c)), slice_to_from. reflexivity.
Qed.

(** One pass of the outer loop moves characters from the stack to the
    lines and drops only whitespace. *)
Lemma wrap_one_line_visible (width : Z) (chunks lines : list string) :
  visible_chars (join "" (wrap_one_line width chunks lines).2)
    +:+ visible_chars (join "" (wrap_one_line width chunks lines).1)
  = visible_chars (join "" lines) +:+ visible_chars (join "" chunks).
Proof.
  unfold wrap_one_line.
  destruct (fill_line_spec width (drop_leading_blank chunks lines) [] 0)
    as (popped & rest & Hch & Heq & _ & _).
  rewrite Heq. simpl app.
  pose proof (break_long_word_join width (0 + sum_len popped) rest popped)
    as Hbreak.
  destruct (break_long_word width rest popped (0 + sum_len popped))
    as [chunks3 cur_line1]. cbn [fst snd] in Hbreak.
  pose proof (visible_drop_trailing_blank cur_line1) as Hdrop.
  rewrite <- (visible_drop_leading_blank chunks lines), Hch.
  rewrite join_empty_app, <- Hbreak, !visible_app, <- Hdrop.
  destruct (drop_trailing_blank cur_line1) as [|l cur_line2]; cbn [fst snd].
  - reflexivity.
  - rewrite join_empty_app, visible_app, join_empty_cons.
    change (join "" []) with "". rewrite append_nil_r.
    now rewrite append_assoc.
Qed.

Lemma wrap_loop_visible (width : Z) (fuel : nat)
    (chunks lines lines' : list string) :
  wrap_loop fuel width chunks lines = Ok lines' ->
  visible_chars (join "" lines')
  = visible_chars (join "" lines) +:+ visible_chars (join "" chunks).
Proof.
  revert chunks lines.
  induction fuel as [|fuel IH]; intros chunks lines Hloop.
  - destruct chunks; [| discriminate]. injection Hloop as <-.
    simpl. now rewrite append_nil_r.
  - destruct chunks as [|c chunks].
    + injection Hloop as <-. simpl. now rewrite append_nil_r.
    + cbn [wrap_loop] in Hloop.
      pose proof (wrap_one_line_visible width (c :: chunks) lines) as Hone.
      destruct (wrap_one_line width (c :: chunks) lines)
        as [chunks' lines1]. cbn [fst snd] in Hone.
      rewrite (IH _ _ Hloop). exact Hone.
Qed.

Section WrapKeepsText.
Variable wordsep_split : string -> list string.

(** The pieces [re.split] returns for a pattern that is one capturing
    group, as [wordsep_re] is, make up the text. *)
Hypothesis wordsep_split_join : forall s, join "" (wordsep_split s) = s.

(** X11: wrapping changes whitespace only: when [max_length] is at least
    1, [word_wrap] returns a string whose characters other than
    whitespace are those of the text, in the same order. *)
Theorem word_wrap_keeps_visible_chars (txt : string) (max_length : Z) :
  1 <= max_length ->
  exists wrapped,
    word_wrap wordsep_split txt max_length = Ok wrapped
    /\ visible_chars wrapped = visible_chars txt.
Proof.
  intros Hw. unfold word_wrap, wrap, _wrap_chunks.
  destruct (Z.leb_spec max_length (len txt)) as [_|]; [| simpl; eauto].
  destruct (Z.leb_spec max_length 0) as [|_]; [lia |].
  destruct (wrap_loop_spec max_length
              (chunks_weight (_split_chunks wordsep_split txt))
              (_split_chunks wordsep_split txt) [] Hw)
    as (lines & Heq & _); [lia | constructor |].
  rewrite Heq. simpl. eexists. split; [reflexivity |].
  rewrite visible_join_newline, (wrap_loop_visible _ _ _ _ _ Heq).
  unfold _split_chunks, _split. simpl.
  now rewrite join_empty_filter, wordsep_split_join, visible_munge.
Qed.

End WrapKeepsText.

Lemma wordsep_simple_split_nonempty (s : string) :
  Forall (fun c => c <> "") (wordsep_simple_split s).
Proof.
  induction s as [|c s IH]; [constructor |]. cbn [wordsep_simple_split].
  destruct (wordsep_simple_split s) as [|[|d r] rest].
  - now repeat constructor.
  - now repeat constructor.
  - apply Forall_cons in IH as [_ IH].
    destruct (Bool.eqb (in_whitespace c) (in_whitespace d));
      now repeat constructor.
Qed.

Lemma wordsep_simple_split_join (s : string) :
  join "" (wordsep_simple_split s) = s.
Proof.
  induction s as [|c s IH]; [reflexivity |]. cbn [wordsep_simple_split].
  pose proof (wordsep_simple_split_nonempty s) as Hne.
  destruct (wordsep_simple_split s) as [|[|d r] rest].
  - simpl in IH. now subst s.
  - apply Forall_cons in Hne as [Hne _]. congruence.
  - rewrite join_empty_cons in IH.
    destruct (Bool.eqb (in_whitespace c) (in_whitespace d));
      rewrite !join_empty_cons; rewrite <- IH; reflexivity.
Qed.

Lemma word_wrap_keeps_visible_chars_witness :
  exists wrapped,
    word_wrap wordsep_simple_split "a tab	and  two spaces" 8 = Ok wrapped
    /\ visible_chars wrapped = visible_chars "a tab	and  two spaces".
Proof.
  apply (word_wrap_keeps_visible_chars wordsep_simple_split
           wordsep_simple_split_join).
  lia.
Defined.

(** ** The lines wrapping makes *)

Lemma str_any_app (f : ascii -> bool) (a b : string) :
  str_any f (a +:+ b) = str_any f a || str_any f b.
Proof.
  induction a as [|c a IH]; [reflexivity |].
  rewrite append_cons. cbn [str_any]. now rewrite IH, orb_assoc.
Qed.

Lemma str_any_take (f : ascii -> bool) (n : nat) (s : string) :
  str_any f s = false -> str_any f (str_take n s) = false.
Proof.
  intros Hs. rewrite <- (str_take_drop n s), str_any_app in Hs.
  now apply orb_false_iff in Hs as [Ht _].
Qed.

Lemma str_any_drop (f : ascii -> bool) (n : nat) (s : string) :
  str_any f s = false -> str_any f (str_drop n s) = false.
Proof.
  intros Hs. rewrite <- (str_take_drop n s), str_any_app in Hs.
  now apply orb_false_iff in Hs as [_ Hd].
Qed.

Lemma str_any_slice_to (f : ascii -> bool) (e : Z) (s : string) :
  str_any f s = false -> str_any f (slice_to e s) = false.
Proof. unfold slice_to. destruct (e <? 0); apply str_any_take. Qed.

Lemma str_any_slice_from (f : ascii -> bool) (e : Z) (s : string) :
  str_any f s = false -> str_any f (slice_from e s) = false.
Proof. unfold slice_from. destruct (e <? 0); apply str_any_drop. Qed.

Lemma str_any_join_empty (f : ascii -> bool) (l : list string) :
  str_any f (join "" l) = false <-> Forall (fun c => str_any f c = false) l.
Proof.
  induction l as [|c l IH]; [split; [constructor | reflexivity] |].
  rewrite join_empty_cons, str_any_app, orb_false_iff, Forall_cons, IH.
  reflexivity.
Qed.

Lemma translate_no_other_whitespace (s : string) :
  str_any other_whitespace (translate_whitespace s) = false.
Proof.
  induction s as [|c s IH]; [reflexivity |].
  cbn [translate_whitespace str_any]. rewrite IH, orb_false_r.
  destruct (in_whitespace c) eqn:Hc; [reflexivity |].
  unfold other_whitespace. now rewrite Hc.
Qed.

Lemma len_pos (s : string) : s <> "" <-> 0 < len s.
Proof.
  unfold len. destruct s; simpl; split; intros H; (congruence || lia).
Qed.

Lemma join_empty_head (l : list string) :
  l <> [] -> head_nonempty l -> join "" l <> "".
Proof.
  destruct l as [|[|a x] l]; intros Hne Hhd;
    [congruence | now simpl in Hhd |].
  rewrite join_empty_cons, append_cons. discriminate.
Qed.

Lemma drop_trailing_blank_prefix (l : list string) :
  exists k, l = drop_trailing_blank l ++ k.
Proof.
  unfold drop_trailing_blank. destruct (last l) as [c|] eqn:Hlast;
    [| exists []; now rewrite app_nil_r].
  destruct (is_blank c); [| exists []; now rewrite app_nil_r].
  exists [c]. now apply removelast_last.
Qed.

Lemma drop_leading_blank_suffix (chunks lines : list string) :
  exists k, chunks = k ++ drop_leading_blank chunks lines.
Proof.
  unfold drop_leading_blank. destruct chunks as [|c rest]; [now exists [] |].
  destruct (is_blank c && negb (bool_decide (lines = [])));
    [now exists [c] | now exists []].
Qed.

Lemma sum_len_clean (l : list string) :
  Forall clean l -> sum_len l = 0 -> l = [].
Proof.
  intros Hall Hsum. destruct Hall as [|c l [Hc _] Hl]; [reflexivity |].
  apply len_pos in Hc. simpl in Hsum. pose proof (sum_len_nonneg l). lia.
Qed.

(** Breaking a long word leaves clean chunks on the stack and a line
    that starts with a character. *)
Lemma break_long_word_clean (width : Z) (chunks cur_line : list string) :
  1 <= width -> sum_len cur_line <= width ->
  Forall clean chunks -> Forall clean cur_line ->
  Forall clean (break_long_word width chunks cur_line (sum_len cur_line)).1
  /\ Forall (fun c => str_any other_whitespace c = false)
       (break_long_word width chunks cur_line (sum_len cur_line)).2
  /\ head_nonempty
       (break_long_word width chunks cur_line (sum_len cur_line)).2.
Proof.
  intros Hw Hsum Hchunks Hline.
  assert (Hline' : Forall (fun c => str_any other_whitespace c = false)
                     cur_line)
    by (eapply Forall_impl; [exact Hline | now intros c [_ Hc]]).
  assert (Hhd : head_nonempty cur_line)
    by (destruct Hline as [|c l [Hc _] _]; [exact I | exact Hc]).
  unfold break_long_word. destruct chunks as [|c rest]; [now repeat split |].
  destruct (Z.ltb_spec width (len c)) as [Hlong | _]; [| now repeat split].
  pose proof (sum_len_nonneg cur_line) as Hpos.
  destruct (handle_long_word_spec width (sum_len cur_line) c rest cur_line
              Hw) as (end_ & Hend & Hfirst & Heq); [lia |].
  rewrite Heq. cbn [fst snd].
  apply Forall_cons in Hchunks as [[Hc Hcws] Hrest].
  split; [| split].
  - constructor; [| exact Hrest]. split.
    + apply len_pos. rewrite len_slice_from by lia. lia.
    + now apply str_any_slice_from.
  - apply Forall_app. split; [exact Hline' |].
    constructor; [now apply str_any_slice_to | constructor].
  - destruct cur_line as [|x cur_line]; [| exact Hhd]. simpl.
    apply len_pos. rewrite len_slice_to by lia.
    specialize (Hfirst eq_refl). lia.
Qed.

(** One pass of the outer loop, with a width of at least 1, keeps the
    stack and the lines clean. *)
Lemma wrap_one_line_clean (width : Z) (chunks lines : list string) :
  1 <= width -> Forall clean chunks -> Forall clean lines ->
  Forall clean (wrap_one_line width chunks lines).1
  /\ Forall clean (wrap_one_line width chunks lines).2.
Proof.
  intros Hw Hchunks Hlines. unfold wrap_one_line.
  destruct (drop_leading_blank_suffix chunks lines) as [k Hk].
  assert (Hchunks1 : Forall clean (drop_leading_blank chunks lines))
    by (rewrite Hk in Hchunks; now apply Forall_app in Hchunks as [_ H]).
  destruct (fill_line_spec width (drop_leading_blank chunks lines) [] 0)
    as (popped & rest & Hch & Heq & Hle & _).
  rewrite Heq. simpl app. rewrite Z.add_0_l in *.
  rewrite Hch in Hchunks1. apply Forall_app in Hchunks1 as [Hpopped Hrest].
  destruct (break_long_word_clean width rest popped Hw)
    as (Hstack & Hws & Hhd); [lia | exact Hrest | exact Hpopped |].
  destruct (break_long_word width rest popped (sum_len popped))
    as [chunks3 cur_line1]. cbn [fst snd] in *.
  destruct (drop_trailing_blank_prefix cur_line1) as [k' Hk'].
  destruct (drop_trailing_blank cur_line1) as [|l cur_line2] eqn:Hline;
    cbn [fst snd]; (split; [exact Hstack |]); [exact Hlines |].
  apply Forall_app. split; [exact Hlines |].
  constructor; [| constructor]. split.
  - apply join_empty_head; [discriminate |].
    rewrite Hk' in Hhd. exact Hhd.
  - apply str_any_join_empty. rewrite Hk' in Hws.
    now apply Forall_app in Hws as [H _].
Qed.

Lemma wrap_loop_clean (width : Z) (fuel : nat)
    (chunks lines lines' : list string) :
  1 <= width -> Forall clean chunks -> Forall clean lines ->
  wrap_loop fuel width chunks lines = Ok lines' -> Forall clean lines'.
Proof.
  intros Hw. revert chunks lines.
  induction fuel as [|fuel IH]; intros chunks lines Hchunks Hlines Hloop.
  - destruct chunks; [| discriminate]. now injection Hloop as <-.
  - destruct chunks as [|c chunks]; [now injection Hloop as <- |].
    cbn [wrap_loop] in Hloop.
    destruct (wrap_one_line_clean width (c :: chunks) lines Hw Hchunks
                Hlines) as [Hstack Hnew].
    destruct (wrap_one_line width (c :: chunks) lines) as [chunks' lines1].
    cbn [fst snd] in *. exact (IH _ _ Hstack Hnew Hloop).
Qed.

Lemma split_nl_one_line (s : string) :
  str_any (Ascii.eqb newline) s = false -> split_nl s = [s].
Proof.
  induction s as [|c s IH]; [reflexivity |]. cbn [str_any split_nl].
  intros Hs. apply orb_false_iff in Hs as [Hc Hs].
  rewrite Ascii.eqb_sym, Hc, (IH Hs). reflexivity.
Qed.

Lemma clean_no_newline (s : string) :
  clean s -> str_any (Ascii.eqb newline) s = false.
Proof.
  intros [_ Hs]. induction s as [|c s IH]; [reflexivity |].
  cbn [str_any] in *. apply orb_false_iff in Hs as [Hc Hs].
  rewrite (IH Hs), orb_false_r.
  destruct (Ascii.eqb_spec newline c) as [<- | _]; [discriminate |].
  reflexivity.
Qed.

(** Clean lines joined by newlines are split into themselves. *)
Lemma split_nl_join_clean (lines : list string) :
  lines <> [] -> Forall clean lines ->
  split_nl (join (String newline "") lines) = lines.
Proof.
  intros Hne Hall. induction Hall as [|p lines Hp Hall IH]; [congruence |].
  destruct lines as [|q lines].
  - apply split_nl_one_line, clean_no_newline, Hp.
  - change (join (String newline "") (p :: q :: lines))
      with (p +:+ String newline "" +:+ join (String newline "") (q :: lines)).
    rewrite split_nl_app, IH by discriminate.
    rewrite (split_nl_one_line p) by apply clean_no_newline, Hp.
    reflexivity.
Qed.

Section WrapLines.
Variable wordsep_split : string -> list string.
Hypothesis wordsep_split_join : forall s, join "" (wordsep_split s) = s.

Lemma split_chunks_clean (txt : string) :
  Forall clean (_split_chunks wordsep_split txt).
Proof.
  unfold _split_chunks, _split.
  assert (Hws : Forall (fun c => str_any other_whitespace c = false)
                  (wordsep_split (_munge_whitespace txt))).
  { apply str_any_join_empty. rewrite wordsep_split_join.
    apply translate_no_other_whitespace. }
  apply Forall_forall. intros c Hin.
  apply list_elem_of_filter in Hin as [Htruthy Hin]. split.
  - intros ->. discriminate Htruthy.
  - clear Htruthy. revert c Hin. now apply Forall_forall.
Qed.

(** X12: when the text is at least [max_length] long and [max_length] is
    at least 1, [word_wrap] returns the empty string or a string none of
    whose lines is empty; the lines hold no tab, carriage return,
    vertical tab or form feed: in the text these have become spaces. *)
Theorem word_wrap_makes_no_empty_line (txt : string) (max_length : Z) :
  1 <= max_length -> max_length <= len txt ->
  exists wrapped,
    word_wrap wordsep_split txt max_length = Ok wrapped
    /\ (wrapped = ""
        \/ Forall (fun line =>
                     line <> "" /\ str_any other_whitespace line = false)
             (split_nl wrapped)).
Proof.
  intros Hw Hlen. unfold word_wrap, wrap, _wrap_chunks.
  destruct (Z.leb_spec max_length (len txt)) as [_|]; [| lia].
  destruct (Z.leb_spec max_length 0) as [|_]; [lia |].
  destruct (wrap_loop_spec max_length
              (chunks_weight (_split_chunks wordsep_split txt))
              (_split_chunks wordsep_split txt) [] Hw)
    as (lines & Heq & _); [lia | constructor |].
  rewrite Heq. simpl. eexists. split; [reflexivity |].
  pose proof (wrap_loop_clean _ _ _ _ _ Hw (split_chunks_clean txt)
                (Forall_nil_2 _) Heq) as Hclean.
  destruct lines as [|l lines]; [now left |]. right.
  rewrite split_nl_join_clean by (discriminate || exact Hclean).
  exact Hclean.
Qed.

End WrapLines.

Lemma word_wrap_makes_no_empty_line_witness :
  exists wrapped,
    word_wrap wordsep_simple_split "one two  three" 4 = Ok wrapped
    /\ (wrapped = ""
        \/ Forall (fun line =>
                     line <> "" /\ str_any other_whitespace line = false)
             (split_nl wrapped)).
Proof.
  apply (word_wrap_makes_no_empty_line wordsep_simple_split
           wordsep_simple_split_join);
    [lia | vm_compute; discriminate].
Defined.

(** ** Where a program prints *)

Section PrintTargets.
Variable write_error : list PrintCall -> PrintCall -> option exn.

(** The prints of a program go to streams that were overrides when it
    started or that its own scopes set. *)
Lemma run_print_targets (p : prog) (allowed : TextIO -> Prop) (w : World) :
  (forall tid f, override tid w = Some f -> allowed f) ->
  exists new,
    printed (run write_error p w).1 = printed w ++ new
    /\ Forall (fun call =>
                 forall f, call_file call = Some f ->
                           allowed f \/ f ∈ streams p) new.
Proof.
  revert allowed w.
  induction p as [| p IHp q IHq | tid' f body IH | tid' txt args | | e];
    intros allowed w Hw; simpl.
  - exists []. now rewrite app_nil_r.
  - unfold mbind, M_bind.
    destruct (IHp allowed w Hw) as (new & Hnew & Hall).
    pose proof (fun tid => run_override write_error p tid w) as Hov.
    assert (Hall' : Forall (fun call =>
                      forall f, call_file call = Some f ->
                                allowed f \/ f ∈ streams p ++ streams q) new).
    { eapply Forall_impl; [exact Hall |]. intros call Hc f0 Hf.
      destruct (Hc f0 Hf); [now left | right; set_solver]. }
    destruct (run write_error p w) as [w1 [[]| e |]]; simpl in *; eauto.
    destruct (IHq allowed w1) as (new' & Hnew' & Hq).
    { intros tid f0 Hf. apply (Hw tid). now rewrite <- Hov. }
    exists (new ++ new'). rewrite Hnew', Hnew, <- app_assoc.
    split; [reflexivity |]. apply Forall_app. split; [exact Hall' |].
    eapply Forall_impl; [exact Hq |]. intros call Hc f0 Hf.
    destruct (Hc f0 Hf); [now left | right; set_solver].
  - rewrite capture_console_unfold. cbn [fst printed].
    destruct (IH (fun g => allowed g \/ g = f)
                (set_local_output tid' (Some f) w).1)
      as (new & Hnew & Hall).
    { intros tid f0 Hf. destruct (decide (tid = tid')) as [-> | Hne].
      - rewrite override_set_same in Hf. injection Hf as <-. now right.
      - rewrite override_set_ne in Hf by exact Hne. left. now apply (Hw tid). }
    exists new. split; [exact Hnew |].
    eapply Forall_impl; [exact Hall |]. intros call Hc f0 Hf.
    destruct (Hc f0 Hf) as [[Ha | ->] | Hin];
      [now left | right; set_solver | right; set_solver].
  - rewrite console_unfold. cbn [fst printed]. eexists.
    split; [reflexivity |]. constructor; [| constructor].
    intros f0 Hf. left. now apply (Hw tid').
  - exists []. now rewrite app_nil_r.
  - exists []. now rewrite app_nil_r.
Qed.

(** X13: a program started where no thread has an override prints only
    to the terminal or to streams its own scopes redirect to: no print
    it makes names a stream that no [capture_console] of the program was
    given. *)
Theorem prints_go_to_captured_streams (p : prog) (w : World) :
  (forall tid, (get_console_output tid w).2 = Ok None) ->
  exists new,
    printed (run write_error p w).1 = printed w ++ new
    /\ Forall (fun call =>
                 call_file call = None
                 \/ exists f, call_file call = Some f /\ f ∈ streams p) new.
Proof.
  intros Hnone.
  destruct (run_print_targets p (fun _ => False) w) as (new & Hnew & Hall).
  { intros tid f Hf. specialize (Hnone tid).
    rewrite get_console_output_spec in Hnone. simpl in Hnone. congruence. }
  exists new. split; [exact Hnew |].
  eapply Forall_impl; [exact Hall |]. intros call Hc.
  destruct (call_file call) as [f|] eqn:Hf; [| now left].
  right. exists f. split; [reflexivity |].
  now destruct (Hc f Hf).
Qed.

End PrintTargets.

Lemma prints_go_to_captured_streams_witness :
  exists new,
    printed
      (run (fun _ _ => None)
         (Seq (Capture 1 (FileObj 7) (Console 1 "inside" []))
              (Console 2 "outside" [])) initial_world).1
    = printed initial_world ++ new
    /\ Forall (fun call =>
                 call_file call = None
                 \/ exists f,
                      call_file call = Some f
                      /\ f ∈ streams
                             (Seq (Capture 1 (FileObj 7)
                                     (Console 1 "inside" []))
                                  (Console 2 "outside" []))) new.
Proof.
  apply (prints_go_to_captured_streams (fun _ _ => None)).
  reflexivity.
Defined.

(** ** Calls of several threads *)

Section ThreadFacts.
Variable write_error : list PrintCall -> PrintCall -> option exn.





(** The statements of one call, run with nothing between them, are the
    call. *)
Lemma run_schedule_one_call (c : ConsoleCall) (w : World) :
  run_schedule write_error [0; 0; 0]%nat [(c, AtSetFile)] w
  = ([(c, Returned
            (console write_error (cc_tid c) (cc_text c) (cc_args c) w).2)],
     (console write_error (cc_tid c) (cc_text c) (cc_args c) w).1).
Proof.
  rewrite console_unfold. simpl. unfold rich_console_print. simpl.
  fold (override (cc_tid c) w).
  destruct (write_error _ _); reflexivity.
Qed.


(** C6: the destination of a print is not kept for the call that set it.
    With the calls of two threads under way, the first sets
    [rich_console.file] (l.193), the second sets it too, and the print of
    the first (l.195) is then made with the override of the second
    thread, not with its own.  Only with nothing between its statements
    is a call the [console] of the sequential reading. *)
Theorem overlapping_console_calls_misdirect (c1 c2 : ConsoleCall)
    (w : World) :
  printed
    (run_schedule write_error [0; 1; 0]%nat
       [(c1, AtSetFile); (c2, AtSetFile)] w).2
  = printed w
      ++ [mkPrintCall (override (cc_tid c2) w) (rich_console_no_color w)
            (cc_text c1) (cc_args c1)]
  /\ run_schedule write_error [0; 0; 0]%nat [(c1, AtSetFile)] w
     = ([(c1, Returned
               (console write_error (cc_tid c1) (cc_text c1) (cc_args c1)
                  w).2)],
        (console write_error (cc_tid c1) (cc_text c1) (cc_args c1) w).1).
Proof.
  split; [| apply run_schedule_one_call].
  simpl. unfold rich_console_print. simpl. fold (override (cc_tid c2) w).
  destruct (write_error _ _); reflexivity.
Qed.



Lemma step_keeps_quiet (calls : list (ConsoleCall * position)) (i : nat)
    (c : ConsoleCall) (p : position) (w : World) :
  calls !! i = Some (c, p) ->
  Exists (fun cp => in_progress cp.2 = true) calls
  \/ rich_console_file w = None ->
  Exists (fun cp => in_progress cp.2 = true)
    (<[i := (c, (step_call write_error c p w).2)]> calls)
  \/ rich_console_file (step_call write_error c p w).1 = None.
Proof.
  intros Hi Hinv.
  assert (Hlt : (i < length calls)%nat) by now apply lookup_lt_Some in Hi.
  assert (Hnew : forall p', in_progress p' = true ->
            Exists (fun cp => in_progress cp.2 = true)
              (<[i := (c, p')]> calls)).
  { intros p' Hp'. apply Exists_exists. exists (c, p').
    split; [| exact Hp'].
    apply list_elem_of_lookup. exists i.
    now apply list_lookup_insert_eq. }
  destruct p as [| | r | r]; cbn [step_call snd fst].
  - left. now apply Hnew.
  - unfold rich_console_print. destruct (write_error _ _);
      left; now apply Hnew.
  - right. reflexivity.
  - rewrite list_insert_id by exact Hi. exact Hinv.
Qed.

Lemma run_schedule_keeps_quiet (schedule : list nat)
    (calls : list (ConsoleCall * position)) (w : World) :
  Exists (fun cp => in_progress cp.2 = true) calls
  \/ rich_console_file w = None ->
  Exists (fun cp => in_progress cp.2 = true)
    (run_schedule write_error schedule calls w).1
  \/ rich_console_file (run_schedule write_error schedule calls w).2 = None.
Proof.
  revert calls w. induction schedule as [|i rest IH]; intros calls w Hinv;
    [exact Hinv |].
  cbn [run_schedule]. destruct (calls !! i) as [[c p]|] eqn:Hi;
    [| now apply IH].
  pose proof (step_keeps_quiet calls i c p w Hi Hinv) as Hstep.
  destruct (step_call write_error c p w) as [w' p']. now apply IH.
Qed.

(** X14: whatever the order in which the statements of the calls of
    several threads run, whenever no call is between its first and its
    last statement, [rich_console.file] is unset, if it was unset to
    start with. *)
Theorem file_is_unset_when_no_call_runs (schedule : list nat)
    (calls : list (ConsoleCall * position)) (w : World) :
  rich_console_file w = None ->
  Forall (fun cp => in_progress cp.2 = false)
    (run_schedule write_error schedule calls w).1 ->
  rich_console_file (run_schedule write_error schedule calls w).2 = None.
Proof.
  intros Hnone Hquiet.
  destruct (run_schedule_keeps_quiet schedule calls w (or_intror Hnone))
    as [Hbusy | Hfile]; [| exact Hfile].
  apply Exists_exists in Hbusy as (cp & Hin & Hcp).
  pose proof (proj1 (Forall_forall _ _) Hquiet cp Hin) as Hno.
  simpl in Hno. congruence.
Qed.

End ThreadFacts.

(** Two threads: thread 1 prints inside a scope, thread 2 outside.  When
    thread 2 sets the file between the two statements of thread 1, the
    text of thread 1 goes to the terminal; when thread 1 sets it between
    the two statements of thread 2, the text of thread 2 goes to the
    stream thread 1 captures with. *)
Example captured_print_reaches_terminal :
  let w := (set_local_output 1 (Some (FileObj 7)) initial_world).1 in
  printed
    (run_schedule (fun _ _ => None) [0; 1; 0]%nat
       [(mkConsoleCall 1 "captured" [], AtSetFile);
        (mkConsoleCall 2 "plain" [], AtSetFile)] w).2
  = [mkPrintCall None false "captured" []]
  /\ printed
       (run_schedule (fun _ _ => None) [1; 0; 1]%nat
          [(mkConsoleCall 1 "captured" [], AtSetFile);
           (mkConsoleCall 2 "plain" [], AtSetFile)] w).2
     = [mkPrintCall (Some (FileObj 7)) false "plain" []].
Proof. split; reflexivity. Qed.



Lemma file_is_unset_when_no_call_runs_witness :
  rich_console_file
    (run_schedule (fun _ _ => None) [0; 1; 0; 1; 1; 0]%nat
       [(mkConsoleCall 1 "a" [], AtSetFile);
        (mkConsoleCall 2 "b" [], AtSetFile)]
       (set_local_output 1 (Some (FileObj 7)) initial_world).1).2
  = None.
Proof.
  apply (file_is_unset_when_no_call_runs (fun _ _ => None)).
  - reflexivity.
  - repeat constructor.
Defined.

(** ** The rendering as a generator *)

Lemma has_visible_text_iff (line : list Segment) :
  has_visible_text line = true
  <-> Exists (fun seg => strip (text seg) <> "") line.
Proof.
  unfold has_visible_text. rewrite existsb_exists, Exists_exists.
  split; intros (seg & Hin & Hseg); exists seg.
  - split; [now apply list_elem_of_In |].
    intros Hempty. rewrite Hempty in Hseg. discriminate Hseg.
  - split; [now apply list_elem_of_In |].
    destruct (strip (text seg)); [congruence | reflexivity].
Qed.

Section GeneratorFacts.
Variables Console ConsoleOptions : Type.
Variable Table_generator :
  Table -> Console -> ConsoleOptions -> list Segment * outcome unit.

Lemma custom_type_generator (self : TerminalTable) (console : Console)
    (options : ConsoleOptions) :
  type self ∈ ["porcelain"; "github"] ->
  exists complete open_line,
    split_segments (Table_generator (table self) console options).1 [] []
    = Ok (complete, open_line)
    /\ Forall (Forall whole)
         (lines_so_far (Table_generator (table self) console options).2
            complete open_line)
    /\ TerminalTable_rich_console Console ConsoleOptions Table_generator
         self console options
       = (concat ((fun line => line ++ [Segment_line])
                    <$> filter (fun line => has_visible_text line = true)
                          (lines_so_far
                             (Table_generator (table self) console options).2
                             complete open_line)),
          (Table_generator (table self) console options).2).
Proof.
  intros Htype. unfold TerminalTable_rich_console.
  destruct (Table_generator (table self) console options)
    as [segments ending]. cbn [fst snd].
  rewrite (bool_decide_eq_true_2 _ Htype). cbn [negb].
  destruct (split_segments_whole segments [] [])
    as (complete & open_line & Hsplit & Hcomplete & Hopen);
    [constructor | constructor |].
  rewrite Hsplit. exists complete, open_line.
  split; [reflexivity |]. split; [| reflexivity].
  unfold lines_so_far. destruct ending; try exact Hcomplete.
  destruct open_line; [exact Hcomplete |].
  apply Forall_app. split; [exact Hcomplete |]. now constructor.
Qed.

(** X9: a table of type [github] has its blank lines stripped as well.
    With what the generator of the [rich] table yields before it ends,
    [__rich_console__] ends the way that generator ends, a raise
    included, and the lines of what it has yielded by then are exactly
    those lines of the table's rendering that have a segment with text
    other than whitespace, in their order. *)
Theorem github_has_no_blank_lines (self : TerminalTable)
    (console : Console) (options : ConsoleOptions) :
  type self = "github" ->
  let rendering := Table_generator (table self) console options in
  let out := TerminalTable_rich_console Console ConsoleOptions
               Table_generator self console options in
  exists complete open_line lines,
    split_segments rendering.1 [] [] = Ok (complete, open_line)
    /\ out.2 = rendering.2
    /\ split_lines out.1 = Ok lines
    /\ lines
       = filter (fun line => Exists (fun seg => strip (text seg) <> "") line)
           (lines_so_far rendering.2 complete open_line)
    /\ Forall (fun line => Exists (fun seg => strip (text seg) <> "") line)
         lines.
Proof.
  intros Htype rendering out.
  destruct (custom_type_generator self console options)
    as (complete & open_line & Hsplit & Hwhole & Hout);
    [rewrite Htype; set_solver |].
  fold rendering in Hsplit, Hwhole, Hout. fold out in Hout.
  exists complete, open_line. eexists.
  split; [exact Hsplit |]. rewrite Hout. cbn [fst snd].
  split; [reflexivity |].
  split.
  { unfold split_lines.
    rewrite split_segments_joined by (apply filter_whole, Hwhole).
    reflexivity. }
  split.
  - apply list_filter_iff. intros line. apply has_visible_text_iff.
  - apply Forall_forall. intros line Hin.
    apply list_elem_of_filter in Hin as [Hvis _].
    now apply has_visible_text_iff.
Qed.

(** X10: for a table of any type, [__rich_console__] ends the way the
    generator of the [rich] table ends, and it is idempotent on what it
    yields: were that output the rendering of the table, the very same
    output would be yielded again, so stripping blank lines twice strips
    nothing more. *)
Theorem rendering_is_idempotent (self : TerminalTable) (console : Console)
    (options : ConsoleOptions) :
  let out := TerminalTable_rich_console Console ConsoleOptions
               Table_generator self console options in
  out.2 = (Table_generator (table self) console options).2
  /\ TerminalTable_rich_console Console ConsoleOptions
       (fun _ _ _ => (out.1, Ok tt)) self console options
     = (out.1, Ok tt).
Proof.
  intros out.
  destruct (decide (type self ∈ ["porcelain"; "github"])) as [Hin | Hnot].
  - destruct (custom_type_generator self console options Hin)
      as (complete & open_line & Hsplit & Hwhole & Hout).
    fold out in Hout. rewrite Hout. cbn [fst snd].
    split; [reflexivity |].
    unfold TerminalTable_rich_console.
    rewrite (bool_decide_eq_true_2 _ Hin). cbn [negb].
    rewrite split_segments_joined by (apply filter_whole, Hwhole).
    cbn [lines_so_far app]. now rewrite filter_visible_idem.
  - subst out. unfold TerminalTable_rich_console.
    destruct (Table_generator (table self) console options)
      as [segments ending].
    rewrite (bool_decide_eq_false_2 _ Hnot). cbn [negb fst snd].
    split; reflexivity.
Qed.

(** When the generator of the [rich] table returns, the generator reading
    and the reading with the whole rendering at hand agree. *)
Lemma generator_that_returns (self : TerminalTable) (console : Console)
    (options : ConsoleOptions) (segments : list Segment) :
  Table_generator (table self) console options = (segments, Ok tt) ->
  exists output,
    __rich_console__ Console ConsoleOptions (fun _ _ _ => segments) self
      console options = Ok output
    /\ TerminalTable_rich_console Console ConsoleOptions Table_generator
         self console options = (output, Ok tt).
Proof.
  intros Hgen. unfold __rich_console__, TerminalTable_rich_console.
  rewrite Hgen.
  destruct (negb (bool_decide (type self ∈ ["porcelain"; "github"])));
    [simpl; eauto |].
  unfold split_lines.
  destruct (split_segments_whole segments [] [])
    as (complete & open_line & Hsplit & _ & _); [constructor | constructor |].
  rewrite Hsplit. simpl. destruct open_line; eauto.
Qed.

End GeneratorFacts.

Lemma github_has_no_blank_lines_witness :
  exists complete open_line lines,
    split_segments
      [mkSegment "| Name |" None None; Segment_line;
       mkSegment "        " None None; Segment_line;
       mkSegment "|------|" None None] [] []
    = Ok (complete, open_line)
    /\ (TerminalTable_rich_console unit unit
          (fun _ _ _ =>
             ([mkSegment "| Name |" None None; Segment_line;
               mkSegment "        " None None; Segment_line;
               mkSegment "|------|" None None], Raise (IOError 5)))
          (mkTerminalTable None [["Name"]] "github"
             (mkTable None GITHUB_BOX true [mkColumn "Name" []] []))
          tt tt).2 = Raise (IOError 5)
    /\ split_lines
         (TerminalTable_rich_console unit unit
            (fun _ _ _ =>
               ([mkSegment "| Name |" None None; Segment_line;
                 mkSegment "        " None None; Segment_line;
                 mkSegment "|------|" None None], Raise (IOError 5)))
            (mkTerminalTable None [["Name"]] "github"
               (mkTable None GITHUB_BOX true [mkColumn "Name" []] []))
            tt tt).1 = Ok lines
    /\ lines
       = filter (fun line => Exists (fun seg => strip (text seg) <> "") line)
           (lines_so_far (Raise (IOError 5)) complete open_line)
    /\ Forall (fun line => Exists (fun seg => strip (text seg) <> "") line)
         lines.
Proof.
  apply (github_has_no_blank_lines unit unit
           (fun _ _ _ =>
              ([mkSegment "| Name |" None None; Segment_line;
                mkSegment "        " None None; Segment_line;
                mkSegment "|------|" None None], Raise (IOError 5)))
           (mkTerminalTable None [["Name"]] "github"
              (mkTable None GITHUB_BOX true [mkColumn "Name" []] []))
           tt tt).
  reflexivity.
Defined.
